(** * dbwrapper.h: the transaction overlay and its merge iterator

    A shallow embedding of [CDBWrapper::Read], [CDBIterator::GetValue],
    [CDBTransaction] and [CDBTransactionIterator] from [src/dbwrapper.h],
    with the properties the storage layer is specified to have. *)

From Stdlib Require Import List ZArith Lia Bool Sorted.
From Stdlib Require Import Strings.Byte.
Import ListNotations.
Local Open Scope Z_scope.

Set Default Proof Using "Type".

(** ** Keys: [CDataStream] as a byte vector *)

(** A [CDataStream] used as a key is its byte vector. *)
Definition CDataStream := list byte.

(** [uint8_t] comparison [a < b]. *)
Definition byte_ltb (a b : byte) : bool := (Byte.to_N a <? Byte.to_N b)%N.

Module DataStreamCmp.

(** [DataStreamCmp::less]: [std::lexicographical_compare] over the bytes:
    walk both ranges; the first position where one byte is smaller decides;
    a range that ends first is smaller; equal ranges are not less. *)
Fixpoint less (a b : CDataStream) : bool :=
  match a, b with
  | _, [] => false
  | [], _ :: _ => true
  | x :: a', y :: b' =>
      if byte_ltb x y then true
      else if byte_ltb y x then false
      else less a' b'
  end.

(** Equivalence under the comparator, as the ordered containers use it:
    neither key is less than the other. *)
Definition equiv (a b : CDataStream) : bool := negb (less a b) && negb (less b a).

End DataStreamCmp.
Import DataStreamCmp.

Definition klt (a b : CDataStream) : Prop := less a b = true.

(** [CDataStream::size()], a [size_t]. *)
Definition size (k : CDataStream) : Z := Z.of_nat (length k).

(** ** The ordered containers

    [std::map<CDataStream, T, DataStreamCmp>] and
    [std::set<CDataStream, DataStreamCmp>] are kept as lists in iteration
    order; every operation finds its place with the comparator only. *)

Section OrderedContainers.

Context {T : Type}.

Definition WritesMapOf := list (CDataStream * T).

(** [m.find(k)]: the entry equivalent to [k], if any. *)
Fixpoint map_find (k : CDataStream) (m : WritesMapOf) : option T :=
  match m with
  | [] => None
  | (k', v) :: m' =>
      if less k' k then map_find k m'
      else if less k k' then None
      else Some v
  end.

(** [m.count(k)]. *)
Definition map_count (k : CDataStream) (m : WritesMapOf) : bool :=
  match map_find k m with Some _ => true | None => false end.

(** [m.emplace(k, _).first->second = v]: assign the entry equivalent to
    [k], inserting it in order when there is none. *)
Fixpoint map_put (k : CDataStream) (v : T) (m : WritesMapOf) : WritesMapOf :=
  match m with
  | [] => [(k, v)]
  | (k', v') :: m' =>
      if less k' k then (k', v') :: map_put k v m'
      else if less k k' then (k, v) :: (k', v') :: m'
      else (k', v) :: m'
  end.

(** [m.erase(m.find(k))] when the entry is there. *)
Fixpoint map_erase (k : CDataStream) (m : WritesMapOf) : WritesMapOf :=
  match m with
  | [] => []
  | (k', v') :: m' =>
      if less k' k then (k', v') :: map_erase k m'
      else if less k k' then (k', v') :: m'
      else m'
  end.

(** [m.lower_bound(k)]: the position of the first entry not less than [k],
    given as the entries from that position to [m.end()]. *)
Fixpoint map_lower_bound (k : CDataStream) (m : WritesMapOf) : WritesMapOf :=
  match m with
  | [] => []
  | (k', v') :: m' => if less k' k then map_lower_bound k m' else m
  end.

End OrderedContainers.

Definition DeletesSet := list CDataStream.

(** [s.count(k)]. *)
Fixpoint set_count (k : CDataStream) (s : DeletesSet) : bool :=
  match s with
  | [] => false
  | k' :: s' =>
      if less k' k then set_count k s'
      else if less k k' then false
      else true
  end.

(** [s.emplace(k)]: the set afterwards and [.second], whether [k] was
    inserted. *)
Fixpoint set_emplace (k : CDataStream) (s : DeletesSet) : DeletesSet * bool :=
  match s with
  | [] => ([k], true)
  | k' :: s' =>
      if less k' k then
        let (r, ins) := set_emplace k s' in (k' :: r, ins)
      else if less k k' then (k :: k' :: s', true)
      else (s, false)
  end.

(** [s.erase(k)]: the set afterwards and the number of elements removed. *)
Fixpoint set_erase (k : CDataStream) (s : DeletesSet) : DeletesSet * Z :=
  match s with
  | [] => ([], 0)
  | k' :: s' =>
      if less k' k then
        let (r, n) := set_erase k s' in (k' :: r, n)
      else if less k k' then (s, 0)
      else (s', 1)
  end.

(** ** Integer types of the accounting *)

(** A value converted to [size_t] (64 bits, unsigned). *)
Definition size_t_wrap (z : Z) : Z := z mod 2 ^ 64.

(** A value converted to [ssize_t] (64 bits, two's complement). *)
Definition ssize_t_wrap (z : Z) : Z := (z + 2 ^ 63) mod 2 ^ 64 - 2 ^ 63.

(** [a + b] on two [size_t]. *)
Definition size_add (a b : Z) : Z := size_t_wrap (a + b).

(** [m -= x] and [m += x] for [ssize_t m] and [size_t x]: the operation is
    carried out on 64 bits and the result stored back as [ssize_t]. *)
Definition ssize_sub (m x : Z) : Z := ssize_t_wrap (m - x).
Definition ssize_add (m x : Z) : Z := ssize_t_wrap (m + x).

(** ** Obfuscation *)

Definition byte_xor (a b : byte) : byte :=
  let '(a0, (a1, (a2, (a3, (a4, (a5, (a6, a7))))))) := Byte.to_bits a in
  let '(b0, (b1, (b2, (b3, (b4, (b5, (b6, b7))))))) := Byte.to_bits b in
  Byte.of_bits
    (xorb a0 b0, (xorb a1 b1, (xorb a2 b2, (xorb a3 b3,
    (xorb a4 b4, (xorb a5 b5, (xorb a6 b6, xorb a7 b7))))))).

Fixpoint Xor_loop (vch key : list byte) (j : nat) : list byte :=
  match vch with
  | [] => []
  | c :: vch' =>
      byte_xor c (nth j key x00)
      :: Xor_loop vch' key (if (S j =? length key)%nat then 0%nat else S j)
  end.

(** Modelled from the spec: [CDataStream::Xor] of streams.h, which is not
    among the sources: the bytes are XORed with the keystream repeated or
    truncated to their length; an empty keystream changes nothing. *)
Definition Xor (vch key : list byte) : list byte :=
  if (length key =? 0)%nat then vch else Xor_loop vch key 0.

(** ** An instantiation for the examples

    Two value types, a byte ([uint8_t]) and a short byte string with a
    one-byte length prefix, and three one-byte keys. *)

Module Ex.

Inductive tag := TUint8 | TBytes.

Inductive value :=
| U8 (b : byte)
| Bytes (bs : list byte).

Definition tag_eq_dec (a b : tag) : {a = b} + {a <> b}.
Proof. decide equality. Defined.

Definition type_of (v : value) : tag :=
  match v with U8 _ => TUint8 | Bytes _ => TBytes end.

Definition Serialize (v : value) : list byte :=
  match v with
  | U8 b => [b]
  | Bytes bs =>
      match Byte.of_N (N.of_nat (length bs)) with
      | Some n => n :: bs
      | None => [xff]
      end
  end.

Definition Unserialize (V : tag) (bytes : list byte) : option value :=
  match V, bytes with
  | TUint8, b :: _ => Some (U8 b)
  | TBytes, n :: rest =>
      if (N.to_nat (Byte.to_N n) <=? length rest)%nat
      then Some (Bytes (firstn (N.to_nat (Byte.to_N n)) rest))
      else None
  | _, [] => None
  end.

Definition key_a : CDataStream := [x61].
Definition key_b : CDataStream := [x62].
Definition key_c : CDataStream := [x63].

End Ex.

(** ** Sizes the sources do not define

    [CDBTransactionIterator::GetKeySize] calls [parentIt->GetKeySize()],
    which [CDBIterator] does not declare, and reads the [vKey] member of a
    key stream, which is not in the sources either.  What they return is
    left open: the first as a function of the parent cursor, the second as
    a function of the key. *)
Record KeySizes := {
  ParentIterator_GetKeySize : list CDataStream -> Z;
  vKey_size : CDataStream -> Z
}.

(** ** The program, over the serializable types it is instantiated with *)

Section Model.

(** The C++ value types [V] (and key types [K]) of the template
    instantiations, their values, and serialize.h's encoding of them, which
    is not among the sources.  [Unserialize V bytes = None] stands for
    [stream >> value] throwing. *)
Variable tag : Type.
Variable tag_eq_dec : forall a b : tag, {a = b} + {a <> b}.
Variable value : Type.
Variable type_of : value -> tag.
Variable Serialize : value -> list byte.
Variable Unserialize : tag -> list byte -> option value.

(** The two sizes [GetKeySize] asks for, taken as given. *)
Variable key_sizes : KeySizes.

(** [ssKey << key] for the key types in use. *)
Class KeyType (K : Type) := to_stream : K -> CDataStream.

#[local] Instance KeyType_value : KeyType value := Serialize.

(** Modelled from the spec: [CDataStream::Serialize] of streams.h, which is
    not among the sources: [stream << stream] appends the bytes of the
    right-hand stream, so a key that is already a stream is its own
    encoding. *)
#[global] Instance KeyType_CDataStream : KeyType CDataStream := fun s => s.

(** Modelled from the spec: [::GetSerializeSize] of serialize.h, which is
    not among the sources: the serialized size of the value, that is the
    length of its encoding. *)
Definition GetSerializeSize (v : value) : Z := Z.of_nat (length (Serialize v)).

(** What a typed [bool Read(key, V& value)] does: throw, return [false], or
    return [true] having assigned [value]. *)
Inductive ReadResult :=
| ReadThrows
| ReadFalse
| ReadTrue (v : value).

(** *** CDBWrapper *)

Record CDBWrapper := {
  pdb : list (CDataStream * list byte);
  obfuscate_key : list byte
}.

(** Modelled from the spec: [CDBWrapper::ReadImpl] of dbwrapper.cpp, which is
    not among the sources: the engine's get by raw key, the stored bytes or
    nothing.  An engine failure, which ends the process, is left out. *)
Definition ReadImpl (w : CDBWrapper) (key : CDataStream) : option (list byte) :=
  map_find key (pdb w).

(** Modelled from the spec: [CDBWrapper::ExistsImpl] of dbwrapper.cpp. *)
Definition ExistsImpl (w : CDBWrapper) (key : CDataStream) : bool :=
  map_count key (pdb w).

(** The [try] block shared by [CDBWrapper::Read] and
    [CDBIterator::GetValue]: remove the obfuscation, decode; any exception
    is caught and turned into [false]. *)
Definition try_decode (bytes obfuscate : list byte) (V : tag) : ReadResult :=
  match Unserialize V (Xor bytes obfuscate) with
  | Some v => ReadTrue v
  | None => ReadFalse
  end.

(** [CDBWrapper::Read<K, V>]. *)
Definition CDBWrapper_Read {K} `{KeyType K} (w : CDBWrapper) (key : K) (V : tag)
  : ReadResult :=
  let ssKey := to_stream key in
  match ReadImpl w ssKey with
  | None => ReadFalse
  | Some strValue => try_decode strValue (obfuscate_key w) V
  end.

(** [CDBWrapper::Exists<K>]. *)
Definition CDBWrapper_Exists {K} `{KeyType K} (w : CDBWrapper) (key : K) : bool :=
  ExistsImpl w (to_stream key).

(** [CDBIterator::GetValue<V>] at a position whose [GetValueImpl()] is
    [slValue]. *)
Definition CDBIterator_GetValue (parent : CDBWrapper) (slValue : list byte)
  (V : tag) : ReadResult :=
  try_decode slValue (obfuscate_key parent) V.

(** *** The template parameters of CDBTransaction *)

(** What [CDBTransaction] and its iterator use of [Parent]: [Read], [Exists]
    and [NewIterator]; a parent iterator is followed through the keys it
    yields in order from [SeekToFirst]. *)
Class ParentStore (P : Type) := {
  parent_Read : P -> CDataStream -> tag -> ReadResult;
  parent_Exists : P -> CDataStream -> bool;
  parent_keys : P -> list CDataStream
}.

(** What [Commit] uses of [CommitTarget]: [Write] and [Erase]. *)
Class CommitTarget (T : Type) := {
  target_Write : CDataStream -> value -> T -> T;
  target_Erase : CDataStream -> T -> T
}.

(** *** CDBTransaction *)

(** [ValueHolderImpl<V>] seen through [ValueHolder*]: the value carries its
    dynamic type [type_of vh_value]. *)
Record ValueHolder := {
  vh_memoryUsage : Z;
  vh_value : value
}.

Definition WritesMap := @WritesMapOf ValueHolder.

Record CDBTransaction := {
  writes : WritesMap;
  deletes : DeletesSet;
  memoryUsage : Z
}.

(** The constructor: both containers empty, [memoryUsage{0}]. *)
Definition CDBTransaction_new : CDBTransaction :=
  {| writes := []; deletes := []; memoryUsage := 0 |}.

(** [dynamic_cast<ValueHolderImpl<V>*>(holder)]. *)
Definition dynamic_cast (V : tag) (holder : ValueHolder) : option ValueHolder :=
  if tag_eq_dec (type_of (vh_value holder)) V then Some holder else None.

Definition KeyToDataStream {K} `{KeyType K} (key : K) : CDataStream := to_stream key.

(** [CDBTransaction::Write(const CDataStream&, const V&)].  The entry that
    [emplace(ssKey, nullptr)] returns holds a non-null pointer exactly when
    the key was in the map before. *)
Definition Write (ssKey : CDataStream) (v : value) (t : CDBTransaction)
  : CDBTransaction :=
  let valueMemoryUsage := GetSerializeSize v in
  let (deletes1, erased) := set_erase ssKey (deletes t) in
  let mu1 := if erased =? 0 then memoryUsage t
             else ssize_sub (memoryUsage t) (size ssKey) in
  let mu2 := match map_find ssKey (writes t) with
             | Some old => ssize_sub mu1 (size_add (size ssKey) (vh_memoryUsage old))
             | None => mu1
             end in
  let writes1 :=
    map_put ssKey {| vh_memoryUsage := valueMemoryUsage; vh_value := v |} (writes t) in
  {| writes := writes1;
     deletes := deletes1;
     memoryUsage := ssize_add mu2 (size_add (size ssKey) valueMemoryUsage) |}.

(** [CDBTransaction::Erase(const CDataStream&)]. *)
Definition Erase (ssKey : CDataStream) (t : CDBTransaction) : CDBTransaction :=
  let '(writes1, mu1) :=
    match map_find ssKey (writes t) with
    | Some old =>
        (map_erase ssKey (writes t),
         ssize_sub (memoryUsage t) (size_add (size ssKey) (vh_memoryUsage old)))
    | None => (writes t, memoryUsage t)
    end in
  let (deletes1, inserted) := set_emplace ssKey (deletes t) in
  {| writes := writes1;
     deletes := deletes1;
     memoryUsage := if inserted then ssize_add mu1 (size ssKey) else mu1 |}.

(** [CDBTransaction::Clear]. *)
Definition Clear (t : CDBTransaction) : CDBTransaction :=
  {| writes := []; deletes := []; memoryUsage := 0 |}.

(** [CDBTransaction::IsClean]. *)
Definition IsClean (t : CDBTransaction) : bool :=
  match writes t, deletes t with [], [] => true | _, _ => false end.

Section WithParent.

Context {P : Type} `{ParentStore P}.

(** [CDBTransaction::Read(const CDataStream&, V&)]. *)
Definition Read (parent : P) (t : CDBTransaction) (ssKey : CDataStream) (V : tag)
  : ReadResult :=
  if set_count ssKey (deletes t) then ReadFalse
  else match map_find ssKey (writes t) with
       | Some holder =>
           match dynamic_cast V holder with
           | None => ReadThrows
           | Some impl => ReadTrue (vh_value impl)
           end
       | None => parent_Read parent ssKey V
       end.

(** [CDBTransaction::Exists(const CDataStream&)]. *)
Definition Exists (parent : P) (t : CDBTransaction) (ssKey : CDataStream) : bool :=
  if set_count ssKey (deletes t) then false
  else if map_count ssKey (writes t) then true
  else parent_Exists parent ssKey.

(** The overloads taking a typed key, [Read<K, V>] and [Exists<K>]. *)
Definition Read_key {K} `{KeyType K} (parent : P) (t : CDBTransaction) (key : K)
  (V : tag) : ReadResult :=
  Read parent t (KeyToDataStream key) V.

Definition Exists_key {K} `{KeyType K} (parent : P) (t : CDBTransaction) (key : K)
  : bool :=
  Exists parent t (KeyToDataStream key).

End WithParent.

(** The overloads taking a typed key, [Write<K, V>] and [Erase<K>]. *)
Definition Write_key {K} `{KeyType K} (key : K) (v : value) (t : CDBTransaction)
  : CDBTransaction :=
  Write (KeyToDataStream key) v t.

Definition Erase_key {K} `{KeyType K} (key : K) (t : CDBTransaction)
  : CDBTransaction :=
  Erase (KeyToDataStream key) t.

(** [ValueHolderImpl<V>::Write]: the held value goes to the commit target. *)
Definition ValueHolder_Write {T} `{CommitTarget T} (holder : ValueHolder)
  (ssKey : CDataStream) (commitTarget : T) : T :=
  target_Write ssKey (vh_value holder) commitTarget.

(** [CDBTransaction::Commit]: the commit target and the transaction
    afterwards. *)
Definition Commit {T} `{CommitTarget T} (commitTarget : T) (t : CDBTransaction)
  : T * CDBTransaction :=
  let target1 := fold_left (fun tg k => target_Erase k tg) (deletes t) commitTarget in
  let target2 :=
    fold_left (fun tg p => ValueHolder_Write (snd p) (fst p) tg) (writes t) target1 in
  (target2, Clear t).

(** What [LogPrintf] receives from [GetMemoryUsage]. *)
Inductive LogLine :=
| NegativeMemoryUsage (memoryUsage : Z).

(** The function's [static volatile bool didPrint] and the debug log. *)
Record LogState := {
  didPrint : bool;
  debug_log : list LogLine
}.

(** [CDBTransaction::GetMemoryUsage]: the [size_t] returned and the log
    state afterwards. *)
Definition GetMemoryUsage (t : CDBTransaction) (l : LogState) : Z * LogState :=
  if memoryUsage t <? 0 then
    (0, if didPrint l then l
        else {| didPrint := true;
                debug_log := debug_log l ++ [NegativeMemoryUsage (memoryUsage t)] |})
  else (size_t_wrap (memoryUsage t), l).

(** *** CDBTransactionIterator *)

(** The iterator's members.  The transaction it refers to and the parent
    store are arguments of its functions, and neither is modified while the
    iterator is in use.  [transactionIt] is a position in
    [transaction.writes], given as the entries from the position to
    [writes.end()]; [parentIt] is the parent's cursor, given as the keys it
    has yet to yield, the first being the one it stands on; a cursor with
    nothing left is not [Valid]. *)
Record CDBTransactionIterator := {
  transactionIt : WritesMap;
  parentIt : list CDataStream;
  parentKey : CDataStream;
  curIsParent : bool
}.

(** [transactionIt != transaction.writes.end()]. *)
Definition transactionIt_valid (it : CDBTransactionIterator) : bool :=
  match transactionIt it with [] => false | _ :: _ => true end.

(** [parentIt->Valid()]. *)
Definition parentIt_Valid (it : CDBTransactionIterator) : bool :=
  match parentIt it with [] => false | _ :: _ => true end.

(** [transactionIt->first]; only evaluated where the position is valid. *)
Definition transactionIt_first (it : CDBTransactionIterator) : CDataStream :=
  match transactionIt it with [] => [] | (k, _) :: _ => k end.

(** The constructor: [transactionIt = writes.end()], a parent iterator that
    has not been positioned, an empty [parentKey], [curIsParent{false}]. *)
Definition NewIterator (t : CDBTransaction) : CDBTransactionIterator :=
  {| transactionIt := []; parentIt := []; parentKey := []; curIsParent := false |}.

(** The [while] loop of [SkipDeletedAndOverwritten] on the parent cursor:
    the cursor and [parentKey] when it stops. *)
Fixpoint skip_loop (t : CDBTransaction) (pit : list CDataStream) (pkey : CDataStream)
  : list CDataStream * CDataStream :=
  match pit with
  | [] => ([], pkey)
  | k :: rest =>
      if negb (set_count k (deletes t)) && negb (map_count k (writes t))
      then (pit, k)
      else skip_loop t rest k
  end.

Definition SkipDeletedAndOverwritten (t : CDBTransaction) (it : CDBTransactionIterator)
  : CDBTransactionIterator :=
  let (pit, pkey) := skip_loop t (parentIt it) (parentKey it) in
  {| transactionIt := transactionIt it;
     parentIt := pit;
     parentKey := pkey;
     curIsParent := curIsParent it |}.

Definition set_curIsParent (b : bool) (it : CDBTransactionIterator)
  : CDBTransactionIterator :=
  {| transactionIt := transactionIt it;
     parentIt := parentIt it;
     parentKey := parentKey it;
     curIsParent := b |}.

(** [CDBTransactionIterator::DecideCur]. *)
Definition DecideCur (it : CDBTransactionIterator) : CDBTransactionIterator :=
  if transactionIt_valid it && negb (parentIt_Valid it) then
    set_curIsParent false it
  else if negb (transactionIt_valid it) && parentIt_Valid it then
    set_curIsParent true it
  else if transactionIt_valid it && parentIt_Valid it then
    if less (transactionIt_first it) (parentKey it)
    then set_curIsParent false it
    else set_curIsParent true it
  else it.

(** The parent cursor's [Seek]: the first entry not less than the key. *)
Fixpoint keys_lower_bound (k : CDataStream) (ks : list CDataStream)
  : list CDataStream :=
  match ks with
  | [] => []
  | k' :: ks' => if less k' k then keys_lower_bound k ks' else ks
  end.

Section IteratorWithParent.

Context {P : Type} `{ParentStore P}.

(** [CDBTransactionIterator::SeekToFirst]. *)
Definition SeekToFirst (parent : P) (t : CDBTransaction) (it : CDBTransactionIterator)
  : CDBTransactionIterator :=
  DecideCur
    (SkipDeletedAndOverwritten t
       {| transactionIt := writes t;
          parentIt := parent_keys parent;
          parentKey := parentKey it;
          curIsParent := curIsParent it |}).

(** [CDBTransactionIterator::Seek(const CDataStream&)]. *)
Definition Seek (parent : P) (t : CDBTransaction) (ssKey : CDataStream)
  (it : CDBTransactionIterator) : CDBTransactionIterator :=
  DecideCur
    (SkipDeletedAndOverwritten t
       {| transactionIt := map_lower_bound ssKey (writes t);
          parentIt := keys_lower_bound ssKey (parent_keys parent);
          parentKey := parentKey it;
          curIsParent := curIsParent it |}).

End IteratorWithParent.

(** [CDBTransactionIterator::Valid]. *)
Definition Valid (it : CDBTransactionIterator) : bool :=
  transactionIt_valid it || parentIt_Valid it.

(** [CDBTransactionIterator::Next]; [None] when one of its two [assert]s
    fails. *)
Definition Next (t : CDBTransaction) (it : CDBTransactionIterator)
  : option CDBTransactionIterator :=
  if negb (transactionIt_valid it) && negb (parentIt_Valid it) then Some it
  else if curIsParent it then
    if parentIt_Valid it then
      Some (DecideCur
              (SkipDeletedAndOverwritten t
                 {| transactionIt := transactionIt it;
                    parentIt := tl (parentIt it);
                    parentKey := parentKey it;
                    curIsParent := curIsParent it |}))
    else None
  else
    if transactionIt_valid it then
      Some (DecideCur
              {| transactionIt := tl (transactionIt it);
                 parentIt := parentIt it;
                 parentKey := parentKey it;
                 curIsParent := curIsParent it |})
    else None.

(** [CDataStream GetKey()]. *)
Definition GetKey (it : CDBTransactionIterator) : CDataStream :=
  if negb (Valid it) then []
  else if curIsParent it then parentKey it
  else transactionIt_first it.

(** [bool GetKey(K& key)]: [None] for [false], [Some key] for [true]. *)
Definition GetKey_typed (it : CDBTransactionIterator) (K : tag) : option value :=
  if negb (Valid it) then None
  else if curIsParent it then Unserialize K (parentKey it)
  else Unserialize K (transactionIt_first it).

(** [parentIt->GetKeySize()]. *)
Definition parentIt_GetKeySize (it : CDBTransactionIterator) : Z :=
  ParentIterator_GetKeySize key_sizes (parentIt it).

(** [unsigned int GetKeySize()]. *)
Definition GetKeySize (it : CDBTransactionIterator) : Z :=
  if negb (Valid it) then 0
  else if curIsParent it then parentIt_GetKeySize it mod 2 ^ 32
  else vKey_size key_sizes (transactionIt_first it) mod 2 ^ 32.

(** [bool GetValue(V& value)]. *)
Definition GetValue {P} `{ParentStore P} (parent : P) (t : CDBTransaction)
  (it : CDBTransactionIterator) (V : tag) : ReadResult :=
  if negb (Valid it) then ReadFalse
  else if curIsParent it then Read parent t (parentKey it) V
  else Read parent t (transactionIt_first it) V.

(** A caller's full traversal,
    [for (it->SeekToFirst(); it->Valid(); it->Next()) keys.push_back(it->GetKey())],
    with the iterator already positioned: the keys visited, or [None] when
    an assertion fails or the loop has not ended within [fuel] rounds. *)
Fixpoint traverse (fuel : nat) (t : CDBTransaction) (it : CDBTransactionIterator)
  : option (list CDataStream) :=
  if Valid it then
    match fuel with
    | O => None
    | S fuel' =>
        match Next t it with
        | None => None
        | Some it' =>
            match traverse fuel' t it' with
            | None => None
            | Some ks => Some (GetKey it :: ks)
            end
        end
    end
  else Some [].

(** The keys of a full traversal of the transaction over [parent]. *)
Definition iterate {P} `{ParentStore P} (parent : P) (t : CDBTransaction)
  : option (list CDataStream) :=
  traverse (length (writes t) + length (parent_keys parent)) t
    (SeekToFirst parent t (NewIterator t)).

(** *** Instances of the template parameters *)

(** [CDBWrapper] as [Parent], with [K = CDataStream]. *)
#[local] Instance ParentStore_CDBWrapper : ParentStore CDBWrapper := {
  parent_Read w ssKey V := CDBWrapper_Read w ssKey V;
  parent_Exists w ssKey := CDBWrapper_Exists w ssKey;
  parent_keys w := map fst (pdb w)
}.

(** A [CDBTransaction] over its own parent as [Parent]. *)
#[local] Instance ParentStore_CDBTransaction {P} `{ParentStore P}
  : ParentStore (P * CDBTransaction) := {
  parent_Read pt ssKey V := Read (fst pt) (snd pt) ssKey V;
  parent_Exists pt ssKey := Exists (fst pt) (snd pt) ssKey;
  parent_keys pt :=
    match iterate (fst pt) (snd pt) with Some ks => ks | None => [] end
}.

(** A [CDBTransaction] as [CommitTarget]. *)
#[local] Instance CommitTarget_CDBTransaction : CommitTarget CDBTransaction := {
  target_Write := Write;
  target_Erase := Erase
}.

(** Modelled from the spec: [CDBWrapper::Write] and [CDBWrapper::Erase] go
    through [CDBBatch] and [WriteBatch] of dbwrapper.cpp, which is not among
    the sources: a put stores the obfuscated encoding under the key, a
    delete removes the key. *)
#[local] Instance CommitTarget_CDBWrapper : CommitTarget CDBWrapper := {
  target_Write ssKey v w :=
    {| pdb := map_put ssKey (Xor (Serialize v) (obfuscate_key w)) (pdb w);
       obfuscate_key := obfuscate_key w |};
  target_Erase ssKey w :=
    {| pdb := map_erase ssKey (pdb w); obfuscate_key := obfuscate_key w |}
}.

(** A commit target that only records the calls it receives. *)
Inductive TargetCall :=
| CalledErase (ssKey : CDataStream)
| CalledWrite (ssKey : CDataStream) (v : value).

#[local] Instance CommitTarget_recorder : CommitTarget (list TargetCall) := {
  target_Write ssKey v calls := calls ++ [CalledWrite ssKey v];
  target_Erase ssKey calls := calls ++ [CalledErase ssKey]
}.

(** *** Sequences of calls on one transaction *)

Inductive Call :=
| CallWrite (ssKey : CDataStream) (v : value)
| CallErase (ssKey : CDataStream)
| CallRead (ssKey : CDataStream) (V : tag)
| CallExists (ssKey : CDataStream)
| CallClear
| CallCommit.

(** One call on the pair of commit target and transaction.  [Read] and
    [Exists] assign to no member. *)
Definition call_step {T} `{CommitTarget T} (s : T * CDBTransaction) (c : Call)
  : T * CDBTransaction :=
  match c with
  | CallWrite ssKey v => (fst s, Write ssKey v (snd s))
  | CallErase ssKey => (fst s, Erase ssKey (snd s))
  | CallRead _ _ => s
  | CallExists _ => s
  | CallClear => (fst s, Clear (snd s))
  | CallCommit => Commit (fst s) (snd s)
  end.

Definition run_calls {T} `{CommitTarget T} (commitTarget : T) (calls : list Call)
  : T * CDBTransaction :=
  fold_left call_step calls (commitTarget, CDBTransaction_new).

(** *** The accounting the counter is compared with *)

Definition writes_usage (m : WritesMap) : Z :=
  fold_right (fun p acc => size (fst p) + GetSerializeSize (vh_value (snd p)) + acc) 0 m.

Definition deletes_usage (s : DeletesSet) : Z :=
  fold_right (fun k acc => size k + acc) 0 s.

Definition analytic_usage (t : CDBTransaction) : Z :=
  writes_usage (writes t) + deletes_usage (deletes t).

(** *** The sequence a traversal is compared with *)

(** A parent key is shadowed when it is in the delete-set or the
    write-set. *)
Definition unshadowed (t : CDBTransaction) (k : CDataStream) : bool :=
  negb (set_count k (deletes t)) && negb (map_count k (writes t)).

(** The two-way merge of two key sequences; on equal heads the right one
    goes first. *)
Fixpoint merge_keys (ws : list CDataStream) : list CDataStream -> list CDataStream :=
  fix merge_right (ps : list CDataStream) : list CDataStream :=
    match ws, ps with
    | [], _ => ps
    | _, [] => ws
    | a :: ws', b :: ps' =>
        if less a b then a :: merge_keys ws' ps else b :: merge_right ps'
    end.

(** The write-set keys merged with the parent keys that are not shadowed. *)
Definition merged_view (t : CDBTransaction) (parentKeys : list CDataStream)
  : list CDataStream :=
  merge_keys (map fst (writes t)) (filter (unshadowed t) parentKeys).

(** The key a recorded call is about. *)
Definition TargetCall_key (c : TargetCall) : CDataStream :=
  match c with
  | CalledErase ssKey => ssKey
  | CalledWrite ssKey _ => ssKey
  end.

(** A key the transaction shows over its parent: a write-set key, or a
    parent key that is in neither set. *)
Definition visible_key {P} `{ParentStore P} (parent : P) (t : CDBTransaction)
  (k : CDataStream) : Prop :=
  In k (map fst (writes t))
  \/ (In k (parent_keys parent)
      /\ ~ In k (map fst (writes t)) /\ ~ In k (deletes t)).

(** *** Invariants of the containers *)

Definition keys_sorted (ks : list CDataStream) : Prop := StronglySorted klt ks.

(** Each key is less than the next one. *)
Fixpoint keys_sortedb (ks : list CDataStream) : bool :=
  match ks with
  | [] => true
  | k :: ks' =>
      match ks' with
      | [] => true
      | k' :: _ => less k k' && keys_sortedb ks'
      end
  end.

(** The containers are in comparator order without equivalent keys (what
    [std::map] and [std::set] maintain) and no key of the write-set is in
    the delete-set. *)
Definition transaction_okb (t : CDBTransaction) : bool :=
  keys_sortedb (map fst (writes t))
  && keys_sortedb (deletes t)
  && forallb (fun k => negb (set_count k (deletes t))) (map fst (writes t)).

Definition transaction_ok (t : CDBTransaction) : Prop := transaction_okb t = true.

(** Every holder records the serialized size of the value it holds. *)
Definition holders_ok (m : WritesMap) : Prop :=
  Forall (fun p => vh_memoryUsage (snd p) = GetSerializeSize (vh_value (snd p))) m.

Definition is_ssize_t (z : Z) : Prop := - 2 ^ 63 <= z < 2 ^ 63.

(** The two containers are in comparator order without equivalent keys,
    which [std::map] and [std::set] maintain by themselves; nothing is
    said about a key being in both. *)
Definition containers_ordered (t : CDBTransaction) : Prop :=
  keys_sortedb (map fst (writes t)) && keys_sortedb (deletes t) = true.

(** The iterator with its legs at [ws] and [ps], after the shadowed parent
    keys are skipped and the current leg is decided. *)
Definition positioned (t : CDBTransaction) (ws : WritesMap) (ps : list CDataStream)
  (pk : CDataStream) (cur : bool) : CDBTransactionIterator :=
  DecideCur
    (SkipDeletedAndOverwritten t
       {| transactionIt := ws; parentIt := ps; parentKey := pk; curIsParent := cur |}).

(** The counter is the analytic total, stored in an [ssize_t]. *)
Definition usage_ok (t : CDBTransaction) : Prop :=
  holders_ok (writes t) /\ memoryUsage t = ssize_t_wrap (analytic_usage t).

(** ** The comparator is a strict total order *)

Lemma byte_ltb_irrefl x : byte_ltb x x = false.
Proof. unfold byte_ltb. apply N.ltb_irrefl. Qed.

Lemma byte_ltb_trans x y z :
  byte_ltb x y = true -> byte_ltb y z = true -> byte_ltb x z = true.
Proof. unfold byte_ltb. rewrite !N.ltb_lt. lia. Qed.

Lemma byte_to_N_inj x y : Byte.to_N x = Byte.to_N y -> x = y.
Proof.
  intros E.
  assert (Some x = Some y) as H; [|now inversion H].
  rewrite <- (Byte.of_to_N x), <- (Byte.of_to_N y). now rewrite E.
Qed.

Lemma byte_ltb_total x y :
  byte_ltb x y = false -> byte_ltb y x = false -> x = y.
Proof.
  unfold byte_ltb. rewrite !N.ltb_ge. intros. apply byte_to_N_inj. lia.
Qed.

Lemma less_irrefl a : less a a = false.
Proof.
  induction a as [|x a IH]; simpl; [reflexivity|].
  now rewrite byte_ltb_irrefl.
Qed.

Lemma less_trans a b c : klt a b -> klt b c -> klt a c.
Proof.
  unfold klt. revert b c.
  induction a as [|x a IH]; intros [|y b] [|z c]; simpl; try congruence.
  destruct (byte_ltb x y) eqn:Hxy.
  - intros _. destruct (byte_ltb y z) eqn:Hyz.
    + now rewrite (byte_ltb_trans _ _ _ Hxy Hyz).
    + destruct (byte_ltb z y) eqn:Hzy; [congruence|].
      rewrite (byte_ltb_total _ _ Hyz Hzy) in Hxy. now rewrite Hxy.
  - destruct (byte_ltb y x) eqn:Hyx; [congruence|].
    rewrite (byte_ltb_total _ _ Hxy Hyx).
    destruct (byte_ltb y z); [reflexivity|].
    destruct (byte_ltb z y); [congruence|]. apply IH.
Qed.

Lemma less_total a b : less a b = false -> less b a = false -> a = b.
Proof.
  revert b. induction a as [|x a IH]; intros [|y b]; simpl; try congruence.
  destruct (byte_ltb x y) eqn:Hxy; [congruence|].
  destruct (byte_ltb y x) eqn:Hyx; [congruence|].
  intros H1 H2. f_equal; [now apply byte_ltb_total | now apply IH].
Qed.

Lemma less_asym a b : klt a b -> less b a = false.
Proof.
  intros H. destruct (less b a) eqn:E; [|reflexivity].
  pose proof (less_trans _ _ _ H E) as C. unfold klt in C.
  now rewrite less_irrefl in C.
Qed.

Lemma equiv_eq a b : equiv a b = true <-> a = b.
Proof.
  unfold equiv. split.
  - intros H. apply andb_prop in H as [H1 H2].
    apply negb_true_iff in H1, H2. now apply less_total.
  - intros ->. now rewrite less_irrefl.
Qed.

(** ** The ordered containers *)

Lemma klt_neq a b : klt a b -> a <> b.
Proof. intros H ->. unfold klt in H. now rewrite less_irrefl in H. Qed.

Lemma sorted_cons_inv k ks :
  keys_sorted (k :: ks) -> keys_sorted ks /\ Forall (klt k) ks.
Proof. intros S. now inversion S. Qed.

Lemma Forall_klt_trans a b ks : klt a b -> Forall (klt b) ks -> Forall (klt a) ks.
Proof.
  intros Hab F. eapply Forall_impl; [|exact F].
  intros c Hbc. exact (less_trans _ _ _ Hab Hbc).
Qed.

(** Case analysis on the two comparisons a container makes at an entry. *)
Ltac cmp_cases k k' :=
  let L1 := fresh "Hlt" in
  let L2 := fresh "Hgt" in
  destruct (less k' k) eqn:L1;
  [| destruct (less k k') eqn:L2;
     [| pose proof (less_total _ _ L1 L2); subst ]].

Section ContainerFacts.

Context {T : Type}.
Implicit Types (m : @WritesMapOf T) (k : CDataStream).

Lemma map_find_above k m :
  Forall (klt k) (map fst m) -> map_find k m = None.
Proof.
  destruct m as [|[k' v] m]; simpl; [reflexivity|].
  intros F. inversion F as [|? ? Hk _]; subst.
  rewrite (less_asym _ _ Hk). now rewrite Hk.
Qed.

Lemma map_find_In k v m :
  keys_sorted (map fst m) -> map_find k m = Some v <-> In (k, v) m.
Proof.
  induction m as [|[k' v'] m IH]; simpl; intros S.
  - split; [discriminate | tauto].
  - apply sorted_cons_inv in S as [S F].
    cmp_cases k k'.
    + rewrite (IH S). split; [tauto|].
      intros [E|I]; [|exact I]. inversion E; subst.
      now rewrite less_irrefl in Hlt.
    + split; [discriminate|]. intros [E|I].
      * inversion E; subst. now rewrite less_irrefl in Hgt.
      * rewrite Forall_forall in F.
        pose proof (F k (in_map fst _ _ I)) as C.
        pose proof (less_trans _ _ _ Hgt C) as C'. unfold klt in C'.
        now rewrite less_irrefl in C'.
    + split.
      * intros E. inversion E. now left.
      * intros [E|I]; [now inversion E|].
        rewrite Forall_forall in F.
        pose proof (F k (in_map fst _ _ I)) as C. unfold klt in C.
        now rewrite less_irrefl in C.
Qed.

Lemma map_count_In k m :
  keys_sorted (map fst m) -> map_count k m = true <-> In k (map fst m).
Proof.
  intros S. unfold map_count. split.
  - destruct (map_find k m) as [v|] eqn:E; [|discriminate].
    intros _. apply (map_find_In _ _ _ S) in E. exact (in_map fst _ _ E).
  - intros I. apply in_map_iff in I as [[k' v] [E I]]. simpl in E. subst.
    apply (map_find_In _ _ _ S) in I. now rewrite I.
Qed.

Lemma map_put_keys_Forall (Q : CDataStream -> Prop) k v m :
  Q k -> Forall Q (map fst m) -> Forall Q (map fst (map_put k v m)).
Proof.
  intros Hk. induction m as [|[k' v'] m IH]; simpl; intros F.
  - now constructor.
  - inversion F; subst.
    cmp_cases k k'; simpl; repeat constructor; auto.
Qed.

Lemma map_put_sorted k v m :
  keys_sorted (map fst m) -> keys_sorted (map fst (map_put k v m)).
Proof.
  induction m as [|[k' v'] m IH]; simpl; intros S.
  - repeat constructor.
  - pose proof S as S0. apply sorted_cons_inv in S as [S F].
    cmp_cases k k'; simpl.
    + constructor; [now apply IH|]. now apply map_put_keys_Forall.
    + constructor; [exact S0|]. constructor; [exact Hgt|].
      exact (Forall_klt_trans _ _ _ Hgt F).
    + exact S0.
Qed.

Lemma map_erase_keys_Forall (Q : CDataStream -> Prop) k m :
  Forall Q (map fst m) -> Forall Q (map fst (map_erase k m)).
Proof.
  induction m as [|[k' v'] m IH]; simpl; intros F; [constructor|].
  inversion F; subst.
  cmp_cases k k'; simpl; auto.
Qed.

Lemma map_erase_sorted k m :
  keys_sorted (map fst m) -> keys_sorted (map fst (map_erase k m)).
Proof.
  induction m as [|[k' v'] m IH]; simpl; intros S; [constructor|].
  pose proof S as S0. apply sorted_cons_inv in S as [S F].
  cmp_cases k k'; simpl; auto.
  constructor; [now apply IH|]. now apply map_erase_keys_Forall.
Qed.

Lemma map_find_put_same k v m : map_find k (map_put k v m) = Some v.
Proof.
  induction m as [|[k' v'] m IH]; simpl.
  - now rewrite less_irrefl.
  - cmp_cases k k'; simpl.
    + now rewrite Hlt.
    + now rewrite less_irrefl.
    + now rewrite less_irrefl.
Qed.

Lemma map_find_put_other k k0 v m :
  k0 <> k -> map_find k0 (map_put k v m) = map_find k0 m.
Proof.
  intros N. induction m as [|[k' v'] m IH]; simpl.
  - cmp_cases k0 k; congruence.
  - cmp_cases k k'; simpl.
    + now rewrite IH.
    + cmp_cases k0 k; [reflexivity| |congruence].
      rewrite (less_asym k0 k' (less_trans _ _ _ Hgt0 Hgt)).
      now rewrite (less_trans _ _ _ Hgt0 Hgt).
    + cmp_cases k0 k; congruence.
Qed.

Lemma map_find_erase_same k m :
  keys_sorted (map fst m) -> map_find k (map_erase k m) = None.
Proof.
  induction m as [|[k' v'] m IH]; simpl; intros S; [reflexivity|].
  apply sorted_cons_inv in S as [S F].
  cmp_cases k k'; simpl.
  - rewrite Hlt. now apply IH.
  - now rewrite Hlt, Hgt.
  - now apply map_find_above.
Qed.

Lemma map_find_erase_other k k0 m :
  keys_sorted (map fst m) -> k0 <> k -> map_find k0 (map_erase k m) = map_find k0 m.
Proof.
  intros S N. induction m as [|[k' v'] m IH]; simpl; [reflexivity|].
  apply sorted_cons_inv in S as [S F].
  cmp_cases k k'; simpl.
  - now rewrite IH.
  - reflexivity.
  - cmp_cases k0 k; [reflexivity| |congruence].
    apply map_find_above. exact (Forall_klt_trans _ _ _ Hgt0 F).
Qed.

End ContainerFacts.

Lemma set_count_In k s : keys_sorted s -> set_count k s = true <-> In k s.
Proof.
  induction s as [|k' s IH]; simpl; intros S.
  - split; [discriminate | tauto].
  - apply sorted_cons_inv in S as [S F]. rewrite Forall_forall in F.
    cmp_cases k k'.
    + rewrite (IH S). split; [tauto|].
      intros [E|I]; [|exact I]. subst. now rewrite less_irrefl in Hlt.
    + split; [discriminate|]. intros [E|I].
      * subst. now rewrite less_irrefl in Hgt.
      * pose proof (less_trans _ _ _ Hgt (F k I)) as C. unfold klt in C.
        now rewrite less_irrefl in C.
    + split; [now left | reflexivity].
Qed.

Lemma set_emplace_Forall (Q : CDataStream -> Prop) k s :
  Q k -> Forall Q s -> Forall Q (fst (set_emplace k s)).
Proof.
  intros Hk. induction s as [|k' s IH]; simpl; intros F.
  - now constructor.
  - inversion F; subst.
    cmp_cases k k'; simpl; auto.
    destruct (set_emplace k s) as [r ins]; simpl in *. constructor; auto.
Qed.

Lemma set_emplace_sorted k s : keys_sorted s -> keys_sorted (fst (set_emplace k s)).
Proof.
  induction s as [|k' s IH]; simpl; intros S.
  - repeat constructor.
  - pose proof S as S0. apply sorted_cons_inv in S as [S F].
    cmp_cases k k'; simpl; auto.
    + pose proof (set_emplace_Forall (klt k') k s Hlt F) as F'.
      specialize (IH S).
      destruct (set_emplace k s) as [r ins]; simpl in *. now constructor.
    + constructor; [exact S0|]. constructor; [exact Hgt|].
      exact (Forall_klt_trans _ _ _ Hgt F).
Qed.

Lemma set_erase_Forall (Q : CDataStream -> Prop) k s :
  Forall Q s -> Forall Q (fst (set_erase k s)).
Proof.
  induction s as [|k' s IH]; simpl; intros F; [constructor|].
  inversion F; subst.
  cmp_cases k k'; simpl; auto.
  destruct (set_erase k s) as [r n]; simpl in *. constructor; auto.
Qed.

Lemma set_erase_sorted k s : keys_sorted s -> keys_sorted (fst (set_erase k s)).
Proof.
  induction s as [|k' s IH]; simpl; intros S; [constructor|].
  pose proof S as S0. apply sorted_cons_inv in S as [S F].
  cmp_cases k k'; simpl; auto.
  pose proof (set_erase_Forall (klt k') k s F) as F'.
  specialize (IH S).
  destruct (set_erase k s) as [r n]; simpl in *. now constructor.
Qed.

Lemma set_count_above k s : Forall (klt k) s -> set_count k s = false.
Proof.
  destruct s as [|k' s]; simpl; [reflexivity|].
  intros F. inversion F as [|? ? Hk _]; subst.
  rewrite (less_asym _ _ Hk). now rewrite Hk.
Qed.

Lemma set_count_emplace_same k s : set_count k (fst (set_emplace k s)) = true.
Proof.
  induction s as [|k' s IH]; simpl.
  - now rewrite less_irrefl.
  - cmp_cases k k'; simpl.
    + destruct (set_emplace k s) as [r ins]; simpl in *. now rewrite Hlt.
    + now rewrite less_irrefl.
    + now rewrite less_irrefl.
Qed.

Lemma set_count_emplace_other k k0 s :
  k0 <> k -> set_count k0 (fst (set_emplace k s)) = set_count k0 s.
Proof.
  intros N. induction s as [|k' s IH]; simpl.
  - cmp_cases k0 k; congruence.
  - cmp_cases k k'; simpl.
    + destruct (set_emplace k s) as [r ins]; simpl in *. now rewrite IH.
    + cmp_cases k0 k; [reflexivity| |congruence].
      rewrite (less_asym k0 k' (less_trans _ _ _ Hgt0 Hgt)).
      now rewrite (less_trans _ _ _ Hgt0 Hgt).
    + reflexivity.
Qed.

Lemma set_count_erase_same k s :
  keys_sorted s -> set_count k (fst (set_erase k s)) = false.
Proof.
  induction s as [|k' s IH]; simpl; intros S; [reflexivity|].
  apply sorted_cons_inv in S as [S F].
  cmp_cases k k'; simpl.
  - specialize (IH S). destruct (set_erase k s) as [r n]; simpl in *.
    now rewrite Hlt.
  - now rewrite Hlt, Hgt.
  - now apply set_count_above.
Qed.

Lemma set_count_erase_other k k0 s :
  keys_sorted s -> k0 <> k -> set_count k0 (fst (set_erase k s)) = set_count k0 s.
Proof.
  intros S N. induction s as [|k' s IH]; simpl; [reflexivity|].
  apply sorted_cons_inv in S as [S F].
  cmp_cases k k'; simpl.
  - specialize (IH S). destruct (set_erase k s) as [r n]; simpl in *.
    now rewrite IH.
  - reflexivity.
  - cmp_cases k0 k; [reflexivity| |congruence].
    apply set_count_above. exact (Forall_klt_trans _ _ _ Hgt0 F).
Qed.

Lemma keys_sortedb_spec ks : keys_sortedb ks = true <-> keys_sorted ks.
Proof.
  induction ks as [|k ks IH]; [split; [constructor | reflexivity]|].
  cbn [keys_sortedb]. destruct ks as [|k' ks].
  - split; [repeat constructor | reflexivity].
  - rewrite andb_true_iff, IH. split.
    + intros [Hk S]. constructor; [exact S|].
      apply sorted_cons_inv in S as [_ F].
      constructor; [exact Hk | exact (Forall_klt_trans _ _ _ Hk F)].
    + intros S. apply sorted_cons_inv in S as [S F].
      inversion F; subst. now split.
Qed.

Lemma transaction_ok_spec t :
  transaction_ok t <->
  keys_sorted (map fst (writes t)) /\ keys_sorted (deletes t)
  /\ (forall k, map_count k (writes t) = true -> set_count k (deletes t) = false).
Proof.
  unfold transaction_ok, transaction_okb.
  rewrite !andb_true_iff, !keys_sortedb_spec, forallb_forall.
  split.
  - intros [[Sw Sd] D]. repeat split; auto.
    intros k Hc. apply (map_count_In _ _ Sw) in Hc.
    apply negb_true_iff. now apply D.
  - intros (Sw & Sd & D). repeat split; auto.
    intros k I. apply negb_true_iff. apply D. now apply map_count_In.
Qed.

Lemma map_erase_absent {T} k (m : @WritesMapOf T) :
  map_find k m = None -> map_erase k m = m.
Proof.
  induction m as [|[k' v'] m IH]; simpl; [reflexivity|].
  cmp_cases k k'; [|reflexivity|discriminate].
  intros E. now rewrite IH.
Qed.

Lemma Write_writes k v t :
  writes (Write k v t)
  = map_put k {| vh_memoryUsage := GetSerializeSize v; vh_value := v |} (writes t).
Proof. unfold Write. now destruct (set_erase k (deletes t)). Qed.

Lemma Write_deletes k v t : deletes (Write k v t) = fst (set_erase k (deletes t)).
Proof. unfold Write. now destruct (set_erase k (deletes t)). Qed.

Lemma Erase_writes k t : writes (Erase k t) = map_erase k (writes t).
Proof.
  unfold Erase. destruct (map_find k (writes t)) eqn:E;
    destruct (set_emplace k (deletes t)); simpl; [reflexivity|].
  now rewrite map_erase_absent.
Qed.

Lemma Erase_deletes k t : deletes (Erase k t) = fst (set_emplace k (deletes t)).
Proof.
  unfold Erase. destruct (map_find k (writes t));
    now destruct (set_emplace k (deletes t)).
Qed.

Lemma eq_key_dec (a b : CDataStream) : {a = b} + {a <> b}.
Proof. apply list_eq_dec, Byte.byte_eq_dec. Defined.

Lemma transaction_new_ok : transaction_ok CDBTransaction_new.
Proof. reflexivity. Qed.

Lemma Clear_ok t : transaction_ok (Clear t).
Proof. reflexivity. Qed.

Lemma Write_ok k v t : transaction_ok t -> transaction_ok (Write k v t).
Proof.
  rewrite !transaction_ok_spec. intros (Sw & Sd & D).
  rewrite Write_writes, Write_deletes. repeat split.
  - now apply map_put_sorted.
  - now apply set_erase_sorted.
  - intros k0 Hc. destruct (eq_key_dec k0 k) as [->|N].
    + now apply set_count_erase_same.
    + rewrite (set_count_erase_other _ _ _ Sd N). apply D.
      unfold map_count in *. now rewrite map_find_put_other in Hc.
Qed.

Lemma Erase_ok k t : transaction_ok t -> transaction_ok (Erase k t).
Proof.
  rewrite !transaction_ok_spec. intros (Sw & Sd & D).
  rewrite Erase_writes, Erase_deletes. repeat split.
  - now apply map_erase_sorted.
  - now apply set_emplace_sorted.
  - intros k0 Hc. unfold map_count in Hc. destruct (eq_key_dec k0 k) as [->|N].
    + now rewrite map_find_erase_same in Hc.
    + rewrite (set_count_emplace_other _ _ _ N). apply D.
      unfold map_count. now rewrite (map_find_erase_other _ _ _ Sw N) in Hc.
Qed.

Create HintDb overlay discriminated.

#[local] Hint Resolve transaction_new_ok Clear_ok Write_ok Erase_ok : overlay.

Lemma call_step_ok {T} `{CommitTarget T} (s : T * CDBTransaction) c :
  transaction_ok (snd s) -> transaction_ok (snd (call_step s c)).
Proof. destruct c; simpl; auto with overlay. Qed.

Lemma fold_calls_ok {T} `{CommitTarget T} calls (s : T * CDBTransaction) :
  transaction_ok (snd s) -> transaction_ok (snd (fold_left call_step calls s)).
Proof.
  revert s. induction calls as [|c calls IH]; simpl; intros s Hs; [exact Hs|].
  apply IH. now apply call_step_ok.
Qed.

Lemma run_calls_ok {T} `{CommitTarget T} (commitTarget : T) calls :
  transaction_ok (snd (run_calls commitTarget calls)).
Proof. apply fold_calls_ok. exact transaction_new_ok. Qed.

(** ** Memory accounting *)

Lemma ssize_t_wrap_shift z q : ssize_t_wrap (z + q * 2 ^ 64) = ssize_t_wrap z.
Proof.
  unfold ssize_t_wrap.
  replace (z + q * 2 ^ 64 + 2 ^ 63) with (z + 2 ^ 63 + q * 2 ^ 64) by ring.
  now rewrite Z_mod_plus_full.
Qed.

Lemma ssize_t_wrap_eq z : exists q, ssize_t_wrap z = z + q * 2 ^ 64.
Proof.
  exists (- ((z + 2 ^ 63) / 2 ^ 64)). unfold ssize_t_wrap.
  rewrite Z.mod_eq by lia. ring.
Qed.

Lemma size_t_wrap_eq z : exists q, size_t_wrap z = z + q * 2 ^ 64.
Proof.
  exists (- (z / 2 ^ 64)). unfold size_t_wrap.
  rewrite Z.mod_eq by lia. ring.
Qed.

Lemma ssize_t_wrap_range z : is_ssize_t (ssize_t_wrap z).
Proof.
  unfold is_ssize_t, ssize_t_wrap.
  pose proof (Z.mod_pos_bound (z + 2 ^ 63) (2 ^ 64)). lia.
Qed.

Lemma ssize_t_wrap_id z : is_ssize_t z -> ssize_t_wrap z = z.
Proof.
  unfold is_ssize_t, ssize_t_wrap. intros R.
  rewrite Z.mod_small by lia. lia.
Qed.

(** Two values that differ by a multiple of 2^64 wrap to the same
    [ssize_t]. *)
Lemma ssize_t_wrap_congr a b q : a = b + q * 2 ^ 64 -> ssize_t_wrap a = ssize_t_wrap b.
Proof. intros ->. apply ssize_t_wrap_shift. Qed.

Lemma ssize_sub_wrap a x y :
  ssize_sub (ssize_t_wrap a) (size_add x y) = ssize_t_wrap (a - (x + y)).
Proof.
  unfold ssize_sub, size_add.
  destruct (ssize_t_wrap_eq a) as [q1 ->].
  destruct (size_t_wrap_eq (x + y)) as [q2 ->].
  apply (ssize_t_wrap_congr _ _ (q1 - q2)). ring.
Qed.

Lemma ssize_add_wrap a x y :
  ssize_add (ssize_t_wrap a) (size_add x y) = ssize_t_wrap (a + (x + y)).
Proof.
  unfold ssize_add, size_add.
  destruct (ssize_t_wrap_eq a) as [q1 ->].
  destruct (size_t_wrap_eq (x + y)) as [q2 ->].
  apply (ssize_t_wrap_congr _ _ (q1 + q2)). ring.
Qed.

Lemma ssize_sub_wrap1 a x : ssize_sub (ssize_t_wrap a) x = ssize_t_wrap (a - x).
Proof.
  unfold ssize_sub. destruct (ssize_t_wrap_eq a) as [q1 ->].
  apply (ssize_t_wrap_congr _ _ q1). ring.
Qed.

Lemma ssize_add_wrap1 a x : ssize_add (ssize_t_wrap a) x = ssize_t_wrap (a + x).
Proof.
  unfold ssize_add. destruct (ssize_t_wrap_eq a) as [q1 ->].
  apply (ssize_t_wrap_congr _ _ q1). ring.
Qed.

(** Push the conversions of a chain of updates to the outside. *)
Ltac wrap_norm :=
  repeat (rewrite ssize_sub_wrap || rewrite ssize_add_wrap
          || rewrite ssize_sub_wrap1 || rewrite ssize_add_wrap1).

Lemma set_erase_usage k s :
  deletes_usage (fst (set_erase k s))
  = deletes_usage s - (if snd (set_erase k s) =? 0 then 0 else size k).
Proof.
  induction s as [|k' s IH]; simpl; [reflexivity|].
  cmp_cases k k'; simpl; try lia.
  destruct (set_erase k s) as [r n]; simpl in *. lia.
Qed.

Lemma set_emplace_usage k s :
  deletes_usage (fst (set_emplace k s))
  = deletes_usage s + (if snd (set_emplace k s) then size k else 0).
Proof.
  induction s as [|k' s IH]; simpl; [lia|].
  cmp_cases k k'; simpl; try lia.
  destruct (set_emplace k s) as [r ins]; simpl in *. lia.
Qed.

Lemma map_put_usage k h m :
  writes_usage (map_put k h m)
  = writes_usage m
    - match map_find k m with
      | Some old => size k + GetSerializeSize (vh_value old)
      | None => 0
      end
    + (size k + GetSerializeSize (vh_value h)).
Proof.
  induction m as [|[k' v'] m IH]; simpl; [lia|].
  cmp_cases k k'; simpl; lia.
Qed.

Lemma map_erase_usage k m :
  writes_usage (map_erase k m)
  = writes_usage m
    - match map_find k m with
      | Some old => size k + GetSerializeSize (vh_value old)
      | None => 0
      end.
Proof.
  induction m as [|[k' v'] m IH]; simpl; [lia|].
  cmp_cases k k'; simpl; lia.
Qed.

Lemma map_find_holder_ok k old m :
  holders_ok m -> map_find k m = Some old ->
  vh_memoryUsage old = GetSerializeSize (vh_value old).
Proof.
  unfold holders_ok. induction m as [|[k' v'] m IH]; simpl; [discriminate|].
  intros F. inversion F; subst.
  cmp_cases k k'; [now apply IH | discriminate |].
  intros E. now inversion E; subst.
Qed.

Lemma map_put_holders_ok k h m :
  vh_memoryUsage h = GetSerializeSize (vh_value h) ->
  holders_ok m -> holders_ok (map_put k h m).
Proof.
  unfold holders_ok. intros Hh. induction m as [|[k' v'] m IH]; simpl; intros F.
  - now repeat constructor.
  - inversion F; subst. cmp_cases k k'; repeat constructor; auto.
Qed.

Lemma map_erase_holders_ok k m : holders_ok m -> holders_ok (map_erase k m).
Proof.
  unfold holders_ok. induction m as [|[k' v'] m IH]; simpl; intros F; [constructor|].
  inversion F; subst. cmp_cases k k'; auto.
Qed.

Lemma usage_new_ok : usage_ok CDBTransaction_new.
Proof. split; [constructor | reflexivity]. Qed.

Lemma Clear_usage_ok t : usage_ok (Clear t).
Proof. split; [constructor | reflexivity]. Qed.

Lemma Write_usage_ok k v t : usage_ok t -> usage_ok (Write k v t).
Proof.
  intros [Hh Hm]. split.
  - rewrite Write_writes. now apply map_put_holders_ok.
  - unfold analytic_usage. rewrite Write_writes, Write_deletes.
    rewrite map_put_usage, set_erase_usage. cbn [vh_value].
    unfold Write. destruct (set_erase k (deletes t)) as [d1 erased]. cbn [snd fst memoryUsage].
    rewrite Hm. unfold analytic_usage.
    destruct (erased =? 0);
      destruct (map_find k (writes t)) as [old|] eqn:E;
      try rewrite (map_find_holder_ok _ _ _ Hh E);
      wrap_norm; f_equal; lia.
Qed.

Lemma Erase_usage_ok k t : usage_ok t -> usage_ok (Erase k t).
Proof.
  intros [Hh Hm]. split.
  - rewrite Erase_writes. now apply map_erase_holders_ok.
  - unfold analytic_usage. rewrite Erase_writes, Erase_deletes.
    rewrite map_erase_usage, set_emplace_usage.
    unfold Erase. destruct (set_emplace k (deletes t)) as [d1 inserted].
    destruct (map_find k (writes t)) as [old|] eqn:E; cbn [snd fst memoryUsage];
      rewrite Hm; unfold analytic_usage;
      try rewrite (map_find_holder_ok _ _ _ Hh E);
      destruct inserted;
      wrap_norm; f_equal; lia.
Qed.

#[local] Hint Resolve usage_new_ok Clear_usage_ok Write_usage_ok Erase_usage_ok
  : overlay.

Lemma call_step_usage_ok {T} `{CommitTarget T} (s : T * CDBTransaction) c :
  usage_ok (snd s) -> usage_ok (snd (call_step s c)).
Proof. destruct c; simpl; auto with overlay. Qed.

Lemma fold_calls_usage_ok {T} `{CommitTarget T} calls (s : T * CDBTransaction) :
  usage_ok (snd s) -> usage_ok (snd (fold_left call_step calls s)).
Proof.
  revert s. induction calls as [|c calls IH]; simpl; intros s Hs; [exact Hs|].
  apply IH. now apply call_step_usage_ok.
Qed.

Lemma analytic_usage_nonneg t : 0 <= analytic_usage t.
Proof.
  unfold analytic_usage.
  assert (0 <= writes_usage (writes t)).
  { induction (writes t) as [|[k h] m IH]; simpl; [lia|].
    unfold size, GetSerializeSize. lia. }
  assert (0 <= deletes_usage (deletes t)).
  { induction (deletes t) as [|k s IH]; simpl; [lia|]. unfold size. lia. }
  lia.
Qed.

(** ** The merge iterator *)

Lemma merge_keys_nil_r ws : merge_keys ws [] = ws.
Proof. now destruct ws. Qed.

Lemma merge_keys_nil_l ps : merge_keys [] ps = ps.
Proof. now destruct ps. Qed.

Lemma merge_keys_cons a ws b ps :
  merge_keys (a :: ws) (b :: ps)
  = if less a b then a :: merge_keys ws (b :: ps) else b :: merge_keys (a :: ws) ps.
Proof. reflexivity. Qed.

Lemma merge_keys_In k ws ps : In k (merge_keys ws ps) <-> In k ws \/ In k ps.
Proof.
  revert ps. induction ws as [|a ws IHw]; intros ps.
  - destruct ps; simpl; tauto.
  - induction ps as [|b ps IHp].
    + simpl; tauto.
    + rewrite merge_keys_cons. destruct (less a b).
      * simpl. rewrite IHw. simpl. tauto.
      * simpl. rewrite IHp. simpl. tauto.
Qed.

Lemma merge_keys_Forall (Q : CDataStream -> Prop) ws ps :
  Forall Q ws -> Forall Q ps -> Forall Q (merge_keys ws ps).
Proof.
  intros Fw Fp. apply Forall_forall. intros k I.
  apply merge_keys_In in I as [I|I];
    [rewrite Forall_forall in Fw | rewrite Forall_forall in Fp]; auto.
Qed.

(** Merging two ascending sequences without a common key gives an
    ascending sequence. *)
Lemma merge_keys_sorted ws ps :
  keys_sorted ws -> keys_sorted ps -> (forall k, In k ws -> ~ In k ps) ->
  keys_sorted (merge_keys ws ps).
Proof.
  revert ps. induction ws as [|a ws IHw]; intros ps Sw Sp D.
  - now destruct ps.
  - induction ps as [|b ps IHp]; [exact Sw|].
    rewrite merge_keys_cons.
    pose proof Sw as Sw0. pose proof Sp as Sp0.
    apply sorted_cons_inv in Sw as [Sw Fw].
    apply sorted_cons_inv in Sp as [Sp Fp].
    destruct (less a b) eqn:Hab.
    + constructor.
      * apply IHw; auto. intros k I. apply D. now right.
      * apply merge_keys_Forall; [exact Fw|].
        constructor; [exact Hab | exact (Forall_klt_trans _ _ _ Hab Fp)].
    + assert (klt b a) as Hba.
      { destruct (less b a) eqn:E; [exact E|]. exfalso.
        apply (D a); [now left|]. left. symmetry. now apply less_total. }
      constructor.
      * apply IHp; auto. intros k I J. apply (D k I). now right.
      * apply merge_keys_Forall; [|exact Fp].
        constructor; [exact Hba | exact (Forall_klt_trans _ _ _ Hba Fw)].
Qed.

Lemma filter_sorted f ks : keys_sorted ks -> keys_sorted (filter f ks).
Proof.
  induction ks as [|k ks IH]; simpl; intros S; [constructor|].
  apply sorted_cons_inv in S as [S F].
  destruct (f k); [|now apply IH].
  constructor; [now apply IH|].
  apply Forall_forall. intros x I. apply filter_In in I as [I _].
  rewrite Forall_forall in F. now apply F.
Qed.

Lemma sorted_NoDup ks : keys_sorted ks -> NoDup ks.
Proof.
  induction ks as [|k ks IH]; intros S; constructor.
  - apply sorted_cons_inv in S as [_ F]. rewrite Forall_forall in F.
    intros I. exact (klt_neq _ _ (F k I) eq_refl).
  - apply IH. now apply sorted_cons_inv in S.
Qed.

(** Where [SkipDeletedAndOverwritten] stops: on the first key that is not
    shadowed, which it has copied to [parentKey], or at the end. *)
Lemma skip_loop_spec t ps pk :
  let r := skip_loop t ps pk in
  filter (unshadowed t) (fst r) = filter (unshadowed t) ps
  /\ (length (fst r) <= length ps)%nat
  /\ match fst r with
     | [] => filter (unshadowed t) ps = []
     | b :: _ => snd r = b /\ unshadowed t b = true
     end.
Proof.
  revert pk. induction ps as [|k ps IH]; intros pk; simpl.
  - auto.
  - fold (unshadowed t k). destruct (unshadowed t k) eqn:U; simpl.
    + rewrite U. auto.
    + destruct (IH k) as (E & L & M). repeat split; auto.
Qed.

Lemma skip_loop_stopped t b ps pk :
  unshadowed t b = true -> skip_loop t (b :: ps) pk = (b :: ps, b).
Proof. intros U. simpl. fold (unshadowed t b). now rewrite U. Qed.

Lemma positioned_stopped t ws b ps pk cur :
  unshadowed t b = true ->
  positioned t ws (b :: ps) pk cur
  = DecideCur
      {| transactionIt := ws; parentIt := b :: ps; parentKey := b; curIsParent := cur |}.
Proof.
  intros U. unfold positioned, SkipDeletedAndOverwritten.
  cbn [parentIt parentKey transactionIt curIsParent].
  now rewrite (skip_loop_stopped _ _ _ _ U).
Qed.

Lemma traverse_S n t it it' :
  Valid it = true -> Next t it = Some it' ->
  traverse (S n) t it
  = match traverse n t it' with
    | None => None
    | Some ks => Some (GetKey it :: ks)
    end.
Proof. intros V N. cbn [traverse]. now rewrite V, N. Qed.

(** From any position that [SeekToFirst], [Seek] or [Next] leaves, the
    traversal ends without a failed assertion and visits the merge of the
    remaining write-set keys with the remaining unshadowed parent keys. *)
Lemma traverse_positioned t n : forall ws ps pk cur,
  (length ws + length ps <= n)%nat ->
  traverse n t (positioned t ws ps pk cur)
  = Some (merge_keys (map fst ws) (filter (unshadowed t) ps)).
Proof.
  induction n as [|n IH]; intros ws ps pk cur Hn.
  - destruct ws; [|simpl in Hn; lia]. destruct ps; [|simpl in Hn; lia].
    reflexivity.
  - pose proof (skip_loop_spec t ps pk) as (Ef & Hl & Hh).
    assert (positioned t ws ps pk cur
            = DecideCur {| transactionIt := ws;
                           parentIt := fst (skip_loop t ps pk);
                           parentKey := snd (skip_loop t ps pk);
                           curIsParent := cur |}) as ->.
    { unfold positioned, SkipDeletedAndOverwritten.
      cbn [parentIt parentKey transactionIt curIsParent].
      now destruct (skip_loop t ps pk). }
    destruct (skip_loop t ps pk) as [ps1 pk1]. cbn [fst snd] in *.
    rewrite <- Ef. clear Ef.
    destruct ws as [|[a h] ws']; destruct ps1 as [|b ps'].
    + reflexivity.
    + destruct Hh as [-> Ub]. cbn [filter]. rewrite Ub.
      rewrite (traverse_S n t _ (positioned t [] ps' b true)) by reflexivity.
      rewrite IH by (simpl in *; lia).
      cbn [map]. now rewrite !merge_keys_nil_l.
    + rewrite (traverse_S n t _ (positioned t ws' [] pk1 false)) by reflexivity.
      rewrite IH by (simpl in *; lia).
      cbn [filter map fst]. now rewrite !merge_keys_nil_r.
    + destruct Hh as [-> Ub]. cbn [filter map fst]. rewrite Ub.
      rewrite merge_keys_cons.
      destruct (less a b) eqn:Hab.
      * rewrite (traverse_S n t _ (positioned t ws' (b :: ps') b false)).
        -- rewrite IH by (simpl in *; lia).
           cbn [filter]. rewrite Ub.
           unfold GetKey, DecideCur, Valid; cbn. now rewrite Hab.
        -- unfold DecideCur, Valid; cbn. now rewrite Hab.
        -- rewrite (positioned_stopped _ _ _ _ _ _ Ub).
           unfold Next, DecideCur at 1 2 3; cbn. now rewrite Hab.
      * rewrite (traverse_S n t _ (positioned t ((a, h) :: ws') ps' b true)).
        -- rewrite IH by (simpl in *; lia).
           unfold GetKey, DecideCur, Valid; cbn. now rewrite Hab.
        -- unfold DecideCur, Valid; cbn. now rewrite Hab.
        -- unfold Next, DecideCur at 1 2 3; cbn. now rewrite Hab.
Qed.

Lemma SeekToFirst_positioned {P} `{ParentStore P} (parent : P) t it :
  SeekToFirst parent t it
  = positioned t (writes t) (parent_keys parent) (parentKey it) (curIsParent it).
Proof. reflexivity. Qed.

Lemma unshadowed_spec t k :
  transaction_ok t ->
  unshadowed t k = true <-> ~ In k (map fst (writes t)) /\ ~ In k (deletes t).
Proof.
  intros Ht. apply transaction_ok_spec in Ht as (Sw & Sd & _).
  unfold unshadowed.
  rewrite andb_true_iff, !negb_true_iff, <- !not_true_iff_false.
  rewrite (map_count_In _ _ Sw), (set_count_In _ _ Sd). tauto.
Qed.

Lemma DecideCur_legs it :
  transactionIt (DecideCur it) = transactionIt it
  /\ parentIt (DecideCur it) = parentIt it
  /\ parentKey (DecideCur it) = parentKey it.
Proof.
  unfold DecideCur.
  destruct (transactionIt_valid it), (parentIt_Valid it); cbn;
    try destruct (less _ _); auto.
Qed.

Lemma DecideCur_valid it :
  transactionIt_valid (DecideCur it) = transactionIt_valid it
  /\ parentIt_Valid (DecideCur it) = parentIt_Valid it
  /\ transactionIt_first (DecideCur it) = transactionIt_first it.
Proof.
  destruct (DecideCur_legs it) as (E1 & E2 & _).
  unfold transactionIt_valid, parentIt_Valid, transactionIt_first.
  now rewrite E1, E2.
Qed.

(** In a traversal the two legs never stand on equal keys: the parent leg
    only stops on keys that are not in the write-set. *)
Lemma positioned_no_tie t ws ps pk cur :
  (forall k, In k (map fst ws) -> map_count k (writes t) = true) ->
  let it := positioned t ws ps pk cur in
  transactionIt_valid it = true -> parentIt_Valid it = true ->
  transactionIt_first it <> parentKey it.
Proof.
  intros Hws. pose proof (skip_loop_spec t ps pk) as (_ & _ & Hh).
  unfold positioned, SkipDeletedAndOverwritten.
  cbn [parentIt parentKey transactionIt curIsParent].
  destruct (skip_loop t ps pk) as [ps1 pk1]. cbn [fst snd] in *.
  cbv zeta.
  match goal with |- context [DecideCur ?x] =>
    destruct (DecideCur_valid x) as (-> & -> & ->);
    destruct (DecideCur_legs x) as (_ & _ & ->)
  end.
  destruct ws as [|[a h] ws']; destruct ps1 as [|b ps']; cbn; try discriminate.
  destruct Hh as [-> Ub]. intros _ _ ->. unfold unshadowed in Ub.
  rewrite (Hws b) in Ub by now left.
  now rewrite andb_false_r in Ub.
Qed.

Lemma dynamic_cast_spec V holder :
  dynamic_cast V holder
  = if tag_eq_dec (type_of (vh_value holder)) V then Some holder else None.
Proof. reflexivity. Qed.

Lemma Read_in_writes {P} `{ParentStore P} (parent : P) t k holder V :
  transaction_ok t -> In (k, holder) (writes t) ->
  Read parent t k V
  = if tag_eq_dec (type_of (vh_value holder)) V
    then ReadTrue (vh_value holder) else ReadThrows.
Proof.
  intros Ht I. pose proof Ht as Ht'.
  apply transaction_ok_spec in Ht' as (Sw & Sd & D).
  apply (map_find_In _ _ _ Sw) in I.
  unfold Read. rewrite D by (unfold map_count; now rewrite I).
  rewrite I, dynamic_cast_spec.
  now destruct (tag_eq_dec (type_of (vh_value holder)) V).
Qed.

(** ** Commit *)

Lemma Erase_keeps_deleted k k0 t :
  set_count k (deletes t) = true -> set_count k (deletes (Erase k0 t)) = true.
Proof.
  intros Hk. rewrite Erase_deletes. destruct (eq_key_dec k k0) as [->|N].
  - apply set_count_emplace_same.
  - now rewrite set_count_emplace_other.
Qed.

Lemma Erase_deleted k t : set_count k (deletes (Erase k t)) = true.
Proof. rewrite Erase_deletes. apply set_count_emplace_same. Qed.

Lemma fold_Erase_ok ds target :
  transaction_ok target ->
  transaction_ok (fold_left (fun tg k => Erase k tg) ds target).
Proof.
  revert target. induction ds as [|d ds IH]; simpl; intros target Ht; auto.
  apply IH. now apply Erase_ok.
Qed.

Lemma fold_Erase_deleted k ds target :
  In k ds \/ set_count k (deletes target) = true ->
  set_count k (deletes (fold_left (fun tg k => Erase k tg) ds target)) = true.
Proof.
  revert target. induction ds as [|d ds IH]; simpl; intros target [I|Hc];
    try tauto.
  - destruct I as [->|I]; apply IH; [right; apply Erase_deleted | now left].
  - apply IH. right. now apply Erase_keeps_deleted.
Qed.

Lemma Write_keeps_deleted k k0 v t :
  transaction_ok t -> k <> k0 ->
  set_count k (deletes t) = true -> set_count k (deletes (Write k0 v t)) = true.
Proof.
  intros Ht N Hk. apply transaction_ok_spec in Ht as (_ & Sd & _).
  rewrite Write_deletes. now rewrite set_count_erase_other.
Qed.

Lemma fold_Write_deleted k (ws : WritesMap) target :
  transaction_ok target -> ~ In k (map fst ws) ->
  set_count k (deletes target) = true ->
  set_count k
    (deletes (fold_left (fun tg p => ValueHolder_Write (snd p) (fst p) tg) ws target))
  = true.
Proof.
  revert target. induction ws as [|[k0 h] ws IH]; simpl; intros target Ht N Hk; auto.
  apply IH.
  - now apply Write_ok.
  - tauto.
  - apply Write_keeps_deleted; auto.
Qed.

Lemma Erase_not_written k t :
  transaction_ok t -> ~ In k (map fst (writes (Erase k t))).
Proof.
  intros Ht I. pose proof (Erase_ok k t Ht) as Ht'.
  apply transaction_ok_spec in Ht as (Sw & _ & _).
  apply transaction_ok_spec in Ht' as (Sw' & _ & _).
  apply (map_count_In _ _ Sw') in I. unfold map_count in I.
  rewrite Erase_writes in I. now rewrite map_find_erase_same in I.
Qed.

Lemma Erase_in_deletes k t : transaction_ok t -> In k (deletes (Erase k t)).
Proof.
  intros Ht. pose proof (Erase_ok k t Ht) as Ht'.
  apply transaction_ok_spec in Ht' as (_ & Sd' & _).
  apply (set_count_In _ _ Sd'). apply Erase_deleted.
Qed.

Lemma fold_recorder_Erase ds (calls : list TargetCall) :
  fold_left (fun tg k => target_Erase k tg) ds calls = calls ++ map CalledErase ds.
Proof.
  revert calls. induction ds as [|d ds IH]; intros calls; simpl.
  - now rewrite app_nil_r.
  - rewrite IH. now rewrite <- app_assoc.
Qed.

Lemma fold_recorder_Write (ws : WritesMap) (calls : list TargetCall) :
  fold_left (fun tg p => ValueHolder_Write (snd p) (fst p) tg) ws calls
  = calls ++ map (fun p => CalledWrite (fst p) (vh_value (snd p))) ws.
Proof.
  revert calls. induction ws as [|w ws IH]; intros calls; simpl.
  - now rewrite app_nil_r.
  - rewrite IH. unfold ValueHolder_Write. simpl. now rewrite <- app_assoc.
Qed.

Lemma merged_view_sorted t ps :
  transaction_ok t -> keys_sorted ps -> keys_sorted (merged_view t ps).
Proof.
  intros Ht Sp. pose proof Ht as Ht'.
  apply transaction_ok_spec in Ht' as (Sw & Sd & D).
  apply merge_keys_sorted; [exact Sw | now apply filter_sorted |].
  intros k I J. apply filter_In in J as [_ U].
  apply (unshadowed_spec _ _ Ht) in U. tauto.
Qed.

Lemma merged_view_In t ps k :
  transaction_ok t ->
  In k (merged_view t ps) <->
  In k (map fst (writes t))
  \/ (In k ps /\ ~ In k (map fst (writes t)) /\ ~ In k (deletes t)).
Proof.
  intros Ht. unfold merged_view.
  rewrite merge_keys_In, filter_In, (unshadowed_spec _ _ Ht). tauto.
Qed.

Lemma iterate_merged_view {P} `{ParentStore P} (parent : P) t :
  iterate parent t = Some (merged_view t (parent_keys parent)).
Proof.
  unfold iterate. rewrite SeekToFirst_positioned.
  now rewrite traverse_positioned.
Qed.

(** A transaction used as the parent of another one iterates in ascending
    order when its own parent does. *)
Lemma nested_parent_keys_sorted {P} `{ParentStore P} (parent : P) t :
  transaction_ok t -> keys_sortedb (parent_keys parent) = true ->
  keys_sortedb (parent_keys (parent, t)) = true.
Proof.
  intros Ht Sp. apply keys_sortedb_spec. apply keys_sortedb_spec in Sp.
  cbn [parent_keys ParentStore_CDBTransaction fst snd].
  rewrite iterate_merged_view. now apply merged_view_sorted.
Qed.

(** *** Commit into a [CDBWrapper] *)

Lemma fold_wrapper_Erase_absent k ds (w : CDBWrapper) :
  keys_sorted (map fst (pdb w)) ->
  In k ds \/ map_find k (pdb w) = None ->
  map_find k (pdb (fold_left (fun tg k => target_Erase k tg) ds w)) = None.
Proof.
  revert w. induction ds as [|d ds IH]; simpl; intros w Sw [I|E]; try tauto.
  - apply IH; [now apply map_erase_sorted|].
    destruct I as [->|I]; [right|now left].
    now apply map_find_erase_same.
  - apply IH; [now apply map_erase_sorted|]. right. cbn [pdb].
    destruct (eq_key_dec k d) as [->|N].
    + now apply map_find_erase_same.
    + now rewrite map_find_erase_other.
Qed.

Lemma fold_wrapper_Write_absent k (ws : WritesMap) (w : CDBWrapper) :
  ~ In k (map fst ws) -> map_find k (pdb w) = None ->
  map_find k
    (pdb (fold_left (fun tg p => ValueHolder_Write (snd p) (fst p) tg) ws w))
  = None.
Proof.
  revert w. induction ws as [|[k0 h] ws IH]; simpl; intros w N E; auto.
  apply IH; [tauto|]. cbn [pdb]. rewrite map_find_put_other; [exact E|].
  intros ->. tauto.
Qed.

(** With the wrapper as commit target, a key erased in the transaction is
    absent from the store after [Commit], so the wrapper's [Read] returns
    [false] for it. *)
Lemma Commit_wrapper_erased_not_found (w : CDBWrapper) t k V :
  transaction_ok t -> keys_sorted (map fst (pdb w)) ->
  CDBWrapper_Read (fst (Commit w (Erase k t))) k V = ReadFalse.
Proof.
  intros Ht Sw. unfold CDBWrapper_Read, ReadImpl, to_stream, KeyType_CDataStream.
  unfold Commit. cbn [fst].
  rewrite fold_wrapper_Write_absent; [reflexivity | now apply Erase_not_written |].
  apply fold_wrapper_Erase_absent; [exact Sw|]. left. now apply Erase_in_deletes.
Qed.

(** ** The specified properties *)

(** C1 (as the code has it).  When both legs are valid, [DecideCur] makes
    the transaction leg current exactly when its key is strictly less than
    the parent key; on equal keys the parent leg is the current one.  The
    iterator's key is then [parentKey], the same bytes, and its value is
    read through the transaction's [Read], so that for a key held in the
    write-set it is still the write-set entry's value. *)
Theorem DecideCur_tie_parent_leg {P} `{ParentStore P} (parent : P)
  (t : CDBTransaction) (it : CDBTransactionIterator) (V : tag) :
  transactionIt_valid it = true -> parentIt_Valid it = true ->
  curIsParent (DecideCur it) = negb (less (transactionIt_first it) (parentKey it))
  /\ (transactionIt_first it = parentKey it ->
      curIsParent (DecideCur it) = true
      /\ GetKey (DecideCur it) = transactionIt_first it
      /\ forall holder,
           transaction_ok t -> In (transactionIt_first it, holder) (writes t) ->
           GetValue parent t (DecideCur it) V
           = if tag_eq_dec (type_of (vh_value holder)) V
             then ReadTrue (vh_value holder) else ReadThrows).
Proof.
  intros Hv Hp.
  assert (curIsParent (DecideCur it)
          = negb (less (transactionIt_first it) (parentKey it))) as Hc.
  { unfold DecideCur. rewrite Hv, Hp. cbn.
    now destruct (less (transactionIt_first it) (parentKey it)). }
  split; [exact Hc|]. intros E.
  assert (curIsParent (DecideCur it) = true) as Hc'.
  { rewrite Hc, E. now rewrite less_irrefl. }
  destruct (DecideCur_valid it) as (Ev & Ep & Ef).
  destruct (DecideCur_legs it) as (_ & _ & Ek).
  repeat split.
  - exact Hc'.
  - unfold GetKey, Valid. rewrite Ev, Ep, Hv, Hp, Hc', Ek. now cbn.
  - intros holder Ht I. unfold GetValue, Valid.
    rewrite Ev, Ep, Hv, Hp, Hc', Ek. cbn. rewrite <- E.
    now apply Read_in_writes.
Qed.

(** C2.  A full traversal from [SeekToFirst] by [Next] until [Valid] is
    false ends, without a failed assertion, and visits a strictly ascending
    sequence of keys without duplicates: exactly the write-set keys and the
    parent keys that are in neither the write-set nor the delete-set. *)
Theorem traversal_sorted_union {P} `{ParentStore P} (parent : P)
  (t : CDBTransaction) (fuel : nat) :
  transaction_ok t ->
  keys_sortedb (parent_keys parent) = true ->
  (length (writes t) + length (parent_keys parent) <= fuel)%nat ->
  exists ks,
    traverse fuel t (SeekToFirst parent t (NewIterator t)) = Some ks
    /\ keys_sorted ks
    /\ NoDup ks
    /\ forall k,
         In k ks <->
         In k (map fst (writes t))
         \/ (In k (parent_keys parent)
             /\ ~ In k (map fst (writes t)) /\ ~ In k (deletes t)).
Proof.
  intros Ht Sp Hf. exists (merged_view t (parent_keys parent)).
  rewrite SeekToFirst_positioned.
  rewrite (traverse_positioned t fuel _ _ _ _ Hf).
  apply keys_sortedb_spec in Sp.
  pose proof (merged_view_sorted t _ Ht Sp) as Sm.
  split; [reflexivity|]. split; [exact Sm|]. split; [now apply sorted_NoDup|].
  intros k. now apply merged_view_In.
Qed.

(** C3.  [Read] and [Exists] share one precedence, in every transaction
    whose containers are in order, a key in both sets included: a key in
    the delete-set is not found, whatever the write-set and the parent
    hold; otherwise a key in the write-set gives the held value (for
    [Read], as the type it was written with) and [true]; otherwise the
    answer is the parent's. *)
Theorem Read_Exists_precedence {P} `{ParentStore P} (parent : P)
  (t : CDBTransaction) (k : CDataStream) (V : tag) :
  containers_ordered t ->
  (In k (deletes t) ->
     Read parent t k V = ReadFalse /\ Exists parent t k = false)
  /\ (~ In k (deletes t) ->
      forall holder, In (k, holder) (writes t) ->
        Exists parent t k = true
        /\ (type_of (vh_value holder) = V ->
            Read parent t k V = ReadTrue (vh_value holder)))
  /\ (~ In k (deletes t) -> ~ In k (map fst (writes t)) ->
      Read parent t k V = parent_Read parent k V
      /\ Exists parent t k = parent_Exists parent k).
Proof.
  unfold containers_ordered. rewrite andb_true_iff, !keys_sortedb_spec.
  intros [Sw Sd].
  assert (~ In k (deletes t) -> set_count k (deletes t) = false) as Hd.
  { intros Nd. apply not_true_iff_false. intros C. apply Nd.
    now apply (set_count_In _ _ Sd). }
  split; [|split].
  - intros Id. apply (set_count_In _ _ Sd) in Id.
    unfold Read, Exists. now rewrite Id.
  - intros Nd holder Iw. apply (map_find_In _ _ _ Sw) in Iw.
    unfold Read, Exists, map_count. rewrite (Hd Nd), Iw. split; [reflexivity|].
    intros E. rewrite dynamic_cast_spec.
    destruct (tag_eq_dec (type_of (vh_value holder)) V) as [_|N];
      [reflexivity | now elim N].
  - intros Nd Nw.
    assert (map_find k (writes t) = None) as Ef.
    { destruct (map_find k (writes t)) as [h|] eqn:Ef; [|reflexivity].
      apply (map_find_In _ _ _ Sw) in Ef. exfalso. apply Nw.
      exact (in_map fst _ _ Ef). }
    unfold Read, Exists, map_count. now rewrite (Hd Nd), Ef.
Qed.

(** C4.  After any sequence of calls on a transaction no key is in both
    the write-set and the delete-set; a [Write] leaves its key in the
    write-set and out of the delete-set, an [Erase] leaves its key in the
    delete-set and out of the write-set. *)
Theorem write_set_delete_set_disjoint {T} `{CommitTarget T} (commitTarget : T)
  (calls : list Call) :
  let t := snd (run_calls commitTarget calls) in
  (forall k, ~ (In k (map fst (writes t)) /\ In k (deletes t)))
  /\ (forall k v,
        In k (map fst (writes (Write k v t))) /\ ~ In k (deletes (Write k v t)))
  /\ (forall k,
        In k (deletes (Erase k t)) /\ ~ In k (map fst (writes (Erase k t)))).
Proof.
  intros t. pose proof (run_calls_ok commitTarget calls) as Ht. fold t in Ht.
  repeat split.
  - intros k [Iw Id].
    apply transaction_ok_spec in Ht as (Sw & Sd & D).
    apply (map_count_In _ _ Sw) in Iw. apply (set_count_In _ _ Sd) in Id.
    rewrite (D _ Iw) in Id. discriminate.
  - pose proof (Write_ok k v t Ht) as Ht'.
    apply transaction_ok_spec in Ht' as (Sw' & _ & _).
    apply (map_count_In _ _ Sw'). unfold map_count.
    now rewrite Write_writes, map_find_put_same.
  - pose proof (Write_ok k v t Ht) as Ht'.
    apply transaction_ok_spec in Ht' as (_ & Sd' & _).
    apply transaction_ok_spec in Ht as (_ & Sd & _).
    intros I. apply (set_count_In _ _ Sd') in I.
    rewrite Write_deletes in I. now rewrite set_count_erase_same in I.
  - now apply Erase_in_deletes.
  - now apply Erase_not_written.
Qed.

(** C5.  After any sequence of calls the counter is the analytic total
    (key size plus serialized value size over the write-set, key size over
    the delete-set) as an [ssize_t]; whenever that total is representable,
    the counter equals it and is not negative. *)
Theorem memoryUsage_is_analytic_sum {T} `{CommitTarget T} (commitTarget : T)
  (calls : list Call) :
  let t := snd (run_calls commitTarget calls) in
  memoryUsage t = ssize_t_wrap (analytic_usage t)
  /\ (analytic_usage t < 2 ^ 63 ->
      memoryUsage t = analytic_usage t /\ 0 <= memoryUsage t).
Proof.
  intros t.
  assert (usage_ok t) as [_ Hm].
  { apply fold_calls_usage_ok. exact usage_new_ok. }
  split; [exact Hm|]. intros Hb.
  pose proof (analytic_usage_nonneg t) as Hn.
  rewrite Hm, ssize_t_wrap_id by (unfold is_ssize_t; lia). lia.
Qed.

(** C6 (as the code has it).  [GetMemoryUsage] returns 0 when the counter
    is negative and returns normally; it logs the diagnostic only if no
    earlier call has ([didPrint] false), setting [didPrint], and otherwise
    leaves the log as it is.  A counter that is not negative is returned
    unchanged, with the log untouched.  The result is never negative. *)
Theorem GetMemoryUsage_clamps (t : CDBTransaction) (l : LogState) :
  is_ssize_t (memoryUsage t) ->
  (memoryUsage t < 0 ->
     fst (GetMemoryUsage t l) = 0
     /\ didPrint (snd (GetMemoryUsage t l)) = true
     /\ (didPrint l = false ->
         debug_log (snd (GetMemoryUsage t l))
         = debug_log l ++ [NegativeMemoryUsage (memoryUsage t)])
     /\ (didPrint l = true -> snd (GetMemoryUsage t l) = l))
  /\ (0 <= memoryUsage t -> GetMemoryUsage t l = (memoryUsage t, l))
  /\ 0 <= fst (GetMemoryUsage t l).
Proof.
  intros R. unfold GetMemoryUsage.
  destruct (memoryUsage t <? 0) eqn:E.
  - apply Z.ltb_lt in E. cbn [fst snd].
    split; [|split; [lia | lia]]. intros _.
    destruct (didPrint l) eqn:D; cbn [didPrint debug_log];
      repeat split; auto; discriminate.
  - apply Z.ltb_ge in E. cbn [fst snd]. unfold size_t_wrap.
    unfold is_ssize_t in R. rewrite Z.mod_small by lia.
    repeat split; try lia; auto.
Qed.

(** C7.  [Commit] calls the target's [Erase] for every delete-set key,
    then its [Write] for every write-set entry with the held value, and
    leaves the transaction with both sets empty and the counter at zero.
    Hence after [Erase(key)] and [Commit()] a [Read(key)] on the commit
    target finds nothing, whatever the target held before. *)
Theorem Commit_erases_then_writes_then_clears :
  (forall (t : CDBTransaction) (calls : list TargetCall),
     fst (Commit calls t)
     = calls ++ map CalledErase (deletes t)
             ++ map (fun p => CalledWrite (fst p) (vh_value (snd p))) (writes t))
  /\ (forall T (CT : CommitTarget T) (commitTarget : T) (t : CDBTransaction),
        writes (snd (Commit commitTarget t)) = []
        /\ deletes (snd (Commit commitTarget t)) = []
        /\ memoryUsage (snd (Commit commitTarget t)) = 0)
  /\ (forall P (PS : ParentStore P) (parent : P) (commitTarget t : CDBTransaction)
             (k : CDataStream) (V : tag),
        transaction_ok t -> transaction_ok commitTarget ->
        Read parent (fst (Commit commitTarget (Erase k t))) k V = ReadFalse
        /\ Exists parent (fst (Commit commitTarget (Erase k t))) k = false).
Proof.
  split; [|split].
  - intros t calls. unfold Commit. cbn [fst].
    now rewrite fold_recorder_Erase, fold_recorder_Write, app_assoc.
  - intros T CT commitTarget t. now unfold Commit.
  - intros P PS parent commitTarget t k V Ht Hc.
    assert (set_count k (deletes (fst (Commit commitTarget (Erase k t)))) = true) as E.
    { unfold Commit. cbn [fst].
      apply fold_Write_deleted.
      - now apply (fold_Erase_ok (deletes (Erase k t)) commitTarget).
      - now apply Erase_not_written.
      - apply (fold_Erase_deleted k (deletes (Erase k t)) commitTarget).
        left. now apply Erase_in_deletes. }
    unfold Read, Exists. now rewrite E.
Qed.

(** C8.  The wrapper's typed [Read] returns [false] when the key is absent
    and when the stored bytes do not decode as the requested type; it never
    throws for either, and [CDBIterator::GetValue] treats a decode failure
    the same way. *)
Theorem CDBWrapper_Read_not_found {K} `{KeyType K} (w : CDBWrapper) (key : K)
  (V : tag) :
  (ReadImpl w (to_stream key) = None -> CDBWrapper_Read w key V = ReadFalse)
  /\ (forall strValue,
        ReadImpl w (to_stream key) = Some strValue ->
        Unserialize V (Xor strValue (obfuscate_key w)) = None ->
        CDBWrapper_Read w key V = ReadFalse)
  /\ (forall strValue v,
        ReadImpl w (to_stream key) = Some strValue ->
        Unserialize V (Xor strValue (obfuscate_key w)) = Some v ->
        CDBWrapper_Read w key V = ReadTrue v)
  /\ (forall strValue,
        ReadImpl w (to_stream key) = Some strValue ->
        CDBWrapper_Read w key V <> ReadThrows)
  /\ (forall slValue,
        Unserialize V (Xor slValue (obfuscate_key w)) = None ->
        CDBIterator_GetValue w slValue V = ReadFalse)
  /\ (forall slValue, CDBIterator_GetValue w slValue V <> ReadThrows).
Proof.
  unfold CDBWrapper_Read, CDBIterator_GetValue, try_decode.
  repeat split.
  - now intros ->.
  - now intros strValue -> ->.
  - now intros strValue v -> ->.
  - intros strValue ->.
    now destruct (Unserialize V (Xor strValue (obfuscate_key w))).
  - now intros slValue ->.
  - intros slValue. now destruct (Unserialize V (Xor slValue (obfuscate_key w))).
Qed.

(** C9.  For a key of the write-set, [Read] with a type other than the one
    written throws: it neither returns [false] nor gives the stored value
    as the requested type; with the type written it returns exactly the
    value written. *)
Theorem Read_type_mismatch_throws {P} `{ParentStore P} (parent : P)
  (t : CDBTransaction) (k : CDataStream) (V : tag) :
  transaction_ok t ->
  (forall holder, In (k, holder) (writes t) ->
     (type_of (vh_value holder) <> V -> Read parent t k V = ReadThrows)
     /\ (type_of (vh_value holder) = V ->
         Read parent t k V = ReadTrue (vh_value holder)))
  /\ (forall v,
        Read parent (Write k v t) k (type_of v) = ReadTrue v
        /\ (type_of v <> V -> Read parent (Write k v t) k V = ReadThrows)).
Proof.
  intros Ht. split.
  - intros holder I. rewrite (Read_in_writes parent t k holder V Ht I).
    destruct (tag_eq_dec (type_of (vh_value holder)) V) as [E|N]; split.
    + intros N. now elim N.
    + reflexivity.
    + reflexivity.
    + intros E. now elim N.
  - intros v. pose proof (Write_ok k v t Ht) as Ht'.
    assert (In (k, {| vh_memoryUsage := GetSerializeSize v; vh_value := v |})
              (writes (Write k v t))) as I.
    { pose proof Ht' as Ht''. apply transaction_ok_spec in Ht'' as (Sw & _ & _).
      apply (map_find_In _ _ _ Sw). rewrite Write_writes.
      apply map_find_put_same. }
    rewrite !(Read_in_writes parent _ k _ _ Ht' I). cbn [vh_value].
    split.
    + destruct (tag_eq_dec (type_of v) (type_of v)) as [E|N];
        [reflexivity | now elim N].
    + intros N. destruct (tag_eq_dec (type_of v) V) as [E|N'];
        [now elim N | reflexivity].
Qed.

(** C10.  On an iterator that is not [Valid], [Next] changes nothing, the
    typed [GetKey] and [GetValue] return [false], the untyped [GetKey]
    returns an empty stream and [GetKeySize] returns 0. *)
Theorem invalid_iterator_accessors {P} `{ParentStore P} (parent : P)
  (t : CDBTransaction) (it : CDBTransactionIterator) (K V : tag) :
  Valid it = false ->
  Next t it = Some it
  /\ GetKey_typed it K = None
  /\ GetValue parent t it V = ReadFalse
  /\ GetKey it = []
  /\ GetKeySize it = 0.
Proof.
  intros Hv. unfold GetKey_typed, GetValue, GetKey, GetKeySize. rewrite Hv.
  repeat split. unfold Next. unfold Valid in Hv.
  apply orb_false_iff in Hv as [-> ->]. reflexivity.
Qed.

(** ** Further properties of the code *)

(** *** The comparator *)

(** X1.  [DataStreamCmp::less] is a strict total order on byte strings: it
    is irreflexive and transitive, and of two different keys exactly one is
    less than the other, so keys equivalent for the containers are equal. *)
Theorem less_strict_total_order :
  (forall a, less a a = false)
  /\ (forall a b c, less a b = true -> less b c = true -> less a c = true)
  /\ (forall a b, less a b = true -> less b a = false)
  /\ (forall a b, a <> b -> less a b = true \/ less b a = true)
  /\ (forall a b, equiv a b = true <-> a = b).
Proof.
  split; [exact less_irrefl|].
  split; [exact less_trans|].
  split; [exact less_asym|].
  split; [|exact equiv_eq].
  intros a b N. destruct (less a b) eqn:Hab; [now left|].
  destruct (less b a) eqn:Hba; [now right|].
  elim N. now apply less_total.
Qed.

(** X2.  A proper prefix is less than its extensions, and the comparison
    of two keys with a common prefix is the comparison of what follows
    it. *)
Theorem less_prefix (p a b : CDataStream) :
  less (p ++ a) (p ++ b) = less a b
  /\ less p (p ++ b) = match b with [] => false | _ :: _ => true end.
Proof.
  split.
  - induction p as [|x p IH]; simpl; [reflexivity|].
    now rewrite byte_ltb_irrefl.
  - induction p as [|x p IH]; simpl; [now destruct b|].
    now rewrite byte_ltb_irrefl.
Qed.

(** *** The iterator's steps *)

(** X3.  [SkipDeletedAndOverwritten] leaves the transaction leg and
    [curIsParent] alone and moves the parent leg forward only: it stops on
    the first parent key that is in neither the delete-set nor the
    write-set, with [parentKey] set to it, or at the end; no such key is
    passed over. *)
Theorem SkipDeletedAndOverwritten_stops (t : CDBTransaction)
  (it : CDBTransactionIterator) :
  let it' := SkipDeletedAndOverwritten t it in
  transactionIt it' = transactionIt it
  /\ curIsParent it' = curIsParent it
  /\ (exists passed,
        parentIt it = passed ++ parentIt it'
        /\ Forall (fun k => set_count k (deletes t) = true
                            \/ map_count k (writes t) = true) passed)
  /\ match parentIt it' with
     | [] => True
     | k :: _ =>
         parentKey it' = k
         /\ set_count k (deletes t) = false /\ map_count k (writes t) = false
     end.
Proof.
  unfold SkipDeletedAndOverwritten.
  generalize (parentKey it) as pk. generalize (parentIt it) as ps.
  intros ps. induction ps as [|k ps IH]; intros pk.
  - cbn. repeat split; auto. exists []. now split.
  - cbn [skip_loop].
    destruct (set_count k (deletes t)) eqn:Ed; cbn [negb andb].
    + specialize (IH k). destruct (skip_loop t ps k) as [pit pkey].
      cbn in *. destruct IH as (E1 & E2 & (passed & Ep & Fp) & Hh).
      repeat split; auto. exists (k :: passed). split.
      * now rewrite Ep.
      * constructor; [now left | exact Fp].
    + destruct (map_count k (writes t)) eqn:Ew; cbn [negb].
      * specialize (IH k). destruct (skip_loop t ps k) as [pit pkey].
        cbn in *. destruct IH as (E1 & E2 & (passed & Ep & Fp) & Hh).
        repeat split; auto. exists (k :: passed). split.
        -- now rewrite Ep.
        -- constructor; [now right | exact Fp].
      * cbn. repeat split; auto. exists []. now split.
Qed.

(** X4.  Whatever the iterator holds, after [DecideCur] the two assertions
    of [Next] hold: [Next] goes through.  [SeekToFirst], [Seek] and [Next]
    all end with [DecideCur]. *)
Theorem Next_after_DecideCur (t : CDBTransaction) (it : CDBTransactionIterator) :
  exists it', Next t (DecideCur it) = Some it'.
Proof.
  unfold Next.
  destruct (DecideCur_valid it) as (-> & -> & _).
  unfold DecideCur.
  destruct (transactionIt_valid it) eqn:Ev, (parentIt_Valid it) eqn:Ep; cbn;
    try destruct (less (transactionIt_first it) (parentKey it)); cbn;
    rewrite ?Ev, ?Ep; eauto.
Qed.

(** X5.  A [Next] on a valid iterator moves forward: fewer entries remain
    on the two legs afterwards, so every loop over [Valid] and [Next]
    ends. *)
Theorem Next_advances (t : CDBTransaction) (it it' : CDBTransactionIterator) :
  Valid it = true -> Next t it = Some it' ->
  (length (transactionIt it') + length (parentIt it')
   < length (transactionIt it) + length (parentIt it))%nat.
Proof.
  unfold Valid, Next. intros Hv.
  destruct (transactionIt_valid it) eqn:Ev, (parentIt_Valid it) eqn:Ep;
    try discriminate; cbn [negb andb];
    destruct (curIsParent it); try discriminate;
    intros E; inversion E; subst; clear E;
    match goal with |- context [DecideCur ?x] =>
      destruct (DecideCur_legs x) as (-> & -> & _)
    end;
    unfold SkipDeletedAndOverwritten, transactionIt_valid, parentIt_Valid in *;
    cbn [transactionIt parentIt parentKey];
    try (pose proof (skip_loop_spec t (tl (parentIt it)) (parentKey it)) as (_ & L & _);
         destruct (skip_loop t (tl (parentIt it)) (parentKey it)) as [pit pkey];
         cbn [fst snd transactionIt parentIt] in * );
    destruct (transactionIt it), (parentIt it); try discriminate;
    cbn [tl length] in *; lia.
Qed.

(** *** How calls on one key compose *)

Lemma map_find_head {T} k (v : T) (m : @WritesMapOf T) :
  map_find k ((k, v) :: m) = Some v.
Proof. simpl. now rewrite less_irrefl. Qed.

Lemma map_find_below {T} k k' (v : T) (m : @WritesMapOf T) :
  klt k k' -> keys_sorted (map fst ((k', v) :: m)) -> map_find k ((k', v) :: m) = None.
Proof.
  intros Hk S. apply map_find_above. simpl.
  apply sorted_cons_inv in S as [_ F].
  constructor; [exact Hk | exact (Forall_klt_trans _ _ _ Hk F)].
Qed.

(** Two maps in comparator order that answer every [find] alike are the
    same map. *)
Lemma sorted_map_ext {T} (a b : @WritesMapOf T) :
  keys_sorted (map fst a) -> keys_sorted (map fst b) ->
  (forall k, map_find k a = map_find k b) -> a = b.
Proof.
  revert b. induction a as [|[ka va] a IH]; intros [|[kb vb] b] Sa Sb E.
  - reflexivity.
  - specialize (E kb). rewrite map_find_head in E. discriminate.
  - specialize (E ka). rewrite map_find_head in E. discriminate.
  - assert (ka = kb) as ->.
    { destruct (less ka kb) eqn:Hab.
      - pose proof (E ka) as C. rewrite map_find_head in C.
        now rewrite (map_find_below _ _ _ _ Hab Sb) in C.
      - destruct (less kb ka) eqn:Hba; [|now apply less_total].
        pose proof (E kb) as C. rewrite map_find_head in C.
        now rewrite (map_find_below _ _ _ _ Hba Sa) in C. }
    pose proof (E kb) as Ev. rewrite !map_find_head in Ev.
    inversion Ev; subst. f_equal.
    pose proof Sa as Sa0. pose proof Sb as Sb0.
    apply sorted_cons_inv in Sa as [Sa Fa]. apply sorted_cons_inv in Sb as [Sb Fb].
    apply IH; auto. intros k. specialize (E k). simpl in E.
    destruct (less kb k) eqn:H1; [exact E|].
    destruct (less k kb) eqn:H2.
    + rewrite !map_find_above; auto;
        eapply Forall_klt_trans; eauto.
    + pose proof (less_total _ _ H1 H2). subst.
      rewrite !map_find_above; auto.
Qed.

Lemma set_count_head k s : set_count k (k :: s) = true.
Proof. simpl. now rewrite less_irrefl. Qed.

(** Two sets in comparator order that answer every [count] alike are the
    same set. *)
Lemma sorted_set_ext (a b : DeletesSet) :
  keys_sorted a -> keys_sorted b ->
  (forall k, set_count k a = set_count k b) -> a = b.
Proof.
  revert b. induction a as [|ka a IH]; intros [|kb b] Sa Sb E.
  - reflexivity.
  - specialize (E kb). rewrite set_count_head in E. discriminate.
  - specialize (E ka). rewrite set_count_head in E. discriminate.
  - pose proof Sa as Sa0. pose proof Sb as Sb0.
    apply sorted_cons_inv in Sa as [Sa Fa]. apply sorted_cons_inv in Sb as [Sb Fb].
    assert (ka = kb) as ->.
    { destruct (less ka kb) eqn:Hab.
      - pose proof (E ka) as C. rewrite set_count_head in C.
        rewrite set_count_above in C; [discriminate|].
        constructor; [exact Hab | exact (Forall_klt_trans _ _ _ Hab Fb)].
      - destruct (less kb ka) eqn:Hba; [|now apply less_total].
        pose proof (E kb) as C. rewrite set_count_head in C.
        rewrite set_count_above in C; [discriminate|].
        constructor; [exact Hba | exact (Forall_klt_trans _ _ _ Hba Fa)]. }
    f_equal. apply IH; auto. intros k. specialize (E k). simpl in E.
    destruct (less kb k) eqn:H1; [exact E|].
    destruct (less k kb) eqn:H2.
    + rewrite !set_count_above; auto; eapply Forall_klt_trans; eauto.
    + pose proof (less_total _ _ H1 H2). subst.
      rewrite !set_count_above; auto.
Qed.

(** A transaction whose counter is the analytic total is determined by its
    two containers. *)
Lemma transaction_ext a b :
  usage_ok a -> usage_ok b ->
  writes a = writes b -> deletes a = deletes b -> a = b.
Proof.
  intros [_ Ha] [_ Hb] Ew Ed.
  assert (memoryUsage a = memoryUsage b) as Em.
  { rewrite Ha, Hb. unfold analytic_usage. now rewrite Ew, Ed. }
  destruct a, b; cbn in *. now subst.
Qed.

(** What [find] and [count] answer after a call, key by key. *)
Lemma Write_find k v t k0 :
  map_find k0 (writes (Write k v t))
  = if eq_key_dec k0 k
    then Some {| vh_memoryUsage := GetSerializeSize v; vh_value := v |}
    else map_find k0 (writes t).
Proof.
  rewrite Write_writes. destruct (eq_key_dec k0 k) as [->|N].
  - apply map_find_put_same.
  - now apply map_find_put_other.
Qed.

Lemma Write_count k v t k0 :
  transaction_ok t ->
  set_count k0 (deletes (Write k v t))
  = if eq_key_dec k0 k then false else set_count k0 (deletes t).
Proof.
  intros Ht. apply transaction_ok_spec in Ht as (_ & Sd & _).
  rewrite Write_deletes. destruct (eq_key_dec k0 k) as [->|N].
  - now apply set_count_erase_same.
  - now apply set_count_erase_other.
Qed.

Lemma Erase_find k t k0 :
  transaction_ok t ->
  map_find k0 (writes (Erase k t))
  = if eq_key_dec k0 k then None else map_find k0 (writes t).
Proof.
  intros Ht. apply transaction_ok_spec in Ht as (Sw & _ & _).
  rewrite Erase_writes. destruct (eq_key_dec k0 k) as [->|N].
  - now apply map_find_erase_same.
  - now apply map_find_erase_other.
Qed.

Lemma Erase_count k t k0 :
  set_count k0 (deletes (Erase k t))
  = if eq_key_dec k0 k then true else set_count k0 (deletes t).
Proof.
  rewrite Erase_deletes. destruct (eq_key_dec k0 k) as [->|N].
  - apply set_count_emplace_same.
  - now apply set_count_emplace_other.
Qed.

(** Two transactions that satisfy the invariants and answer every [find]
    and [count] alike are equal. *)
Lemma transaction_ext_lookup a b :
  transaction_ok a -> transaction_ok b -> usage_ok a -> usage_ok b ->
  (forall k, map_find k (writes a) = map_find k (writes b)) ->
  (forall k, set_count k (deletes a) = set_count k (deletes b)) ->
  a = b.
Proof.
  intros Ha Hb Ua Ub Ew Ed.
  apply transaction_ok_spec in Ha as (Swa & Sda & _).
  apply transaction_ok_spec in Hb as (Swb & Sdb & _).
  apply transaction_ext; auto.
  - now apply sorted_map_ext.
  - now apply sorted_set_ext.
Qed.

(** X6.  Of two successive calls on one key only the second one counts:
    in every state reached by calls, a [Write] or [Erase] of a key right
    after a [Write] or [Erase] of the same key leaves the transaction
    (both sets and the counter) exactly as the second call alone does. *)
Theorem last_call_on_a_key_wins {T} `{CommitTarget T} (commitTarget : T)
  (calls : list Call) (k : CDataStream) (v1 v2 : value) :
  let t := snd (run_calls commitTarget calls) in
  Write k v2 (Write k v1 t) = Write k v2 t
  /\ Write k v2 (Erase k t) = Write k v2 t
  /\ Erase k (Write k v1 t) = Erase k t
  /\ Erase k (Erase k t) = Erase k t.
Proof.
  intros t.
  assert (transaction_ok t) as Ht by apply run_calls_ok.
  assert (usage_ok t) as Hu.
  { apply fold_calls_usage_ok. exact usage_new_ok. }
  repeat split; apply transaction_ext_lookup; auto 6 with overlay; intros k0;
    repeat first
      [ rewrite Write_find
      | rewrite Erase_find by auto with overlay
      | rewrite Write_count by auto with overlay
      | rewrite Erase_count ];
    now destruct (eq_key_dec k0 k).
Qed.

(** X7.  A call on one key does not change what [Read] and [Exists] answer
    for any other key. *)
Theorem other_keys_unaffected {P} `{ParentStore P} (parent : P)
  (t : CDBTransaction) (k k0 : CDataStream) (v : value) (V : tag) :
  transaction_ok t -> k0 <> k ->
  Read parent (Write k v t) k0 V = Read parent t k0 V
  /\ Exists parent (Write k v t) k0 = Exists parent t k0
  /\ Read parent (Erase k t) k0 V = Read parent t k0 V
  /\ Exists parent (Erase k t) k0 = Exists parent t k0.
Proof.
  intros Ht N. unfold Read, Exists, map_count.
  rewrite !Write_find, !Erase_find, !Write_count, !Erase_count by exact Ht.
  destruct (eq_key_dec k0 k) as [E|_]; [now elim N|]. now repeat split.
Qed.

(** X8.  After [Erase(key)] the key reads as not found and does not exist,
    whatever the transaction held and whatever the parent holds. *)
Theorem Erase_hides_key {P} `{ParentStore P} (parent : P) (t : CDBTransaction)
  (k : CDataStream) (V : tag) :
  Read parent (Erase k t) k V = ReadFalse
  /\ Exists parent (Erase k t) k = false.
Proof. unfold Read, Exists. now rewrite Erase_deleted. Qed.

(** X9.  After [Write(key, v)] the key exists and a full traversal visits
    it; after [Erase(key)] no traversal visits it, even when the parent
    holds it. *)
Theorem traversal_follows_calls {P} `{ParentStore P} (parent : P)
  (t : CDBTransaction) (k : CDataStream) (v : value) :
  transaction_ok t ->
  Exists parent (Write k v t) k = true
  /\ (exists ks, iterate parent (Write k v t) = Some ks /\ In k ks)
  /\ (exists ks, iterate parent (Erase k t) = Some ks /\ ~ In k ks).
Proof.
  intros Ht.
  pose proof (Write_ok k v t Ht) as Hw. pose proof (Erase_ok k t Ht) as He.
  assert (map_find k (writes (Write k v t))
          = Some {| vh_memoryUsage := GetSerializeSize v; vh_value := v |}) as Ef.
  { rewrite Write_find. now destruct (eq_key_dec k k). }
  split; [|split].
  - unfold Exists, map_count. rewrite Ef, (Write_count _ _ _ _ Ht).
    now destruct (eq_key_dec k k).
  - eexists. split; [apply iterate_merged_view|].
    apply (merged_view_In _ _ _ Hw). left.
    pose proof Hw as Hw'. apply transaction_ok_spec in Hw' as (Sw & _ & _).
    apply (map_count_In _ _ Sw). unfold map_count. now rewrite Ef.
  - eexists. split; [apply iterate_merged_view|].
    intros I. apply (merged_view_In _ _ _ He) in I as [I|(_ & _ & Nd)].
    + now apply (Erase_not_written k t Ht).
    + apply Nd. now apply Erase_in_deletes.
Qed.

(** *** Commit into another transaction *)

Lemma fold_Write_ok (ws : WritesMap) target :
  transaction_ok target ->
  transaction_ok
    (fold_left (fun tg p => ValueHolder_Write (snd p) (fst p) tg) ws target).
Proof.
  revert target. induction ws as [|[k0 h] ws IH]; simpl; intros target Ht; auto.
  apply IH. now apply Write_ok.
Qed.

Lemma fold_Erase_lookup k ds target :
  transaction_ok target -> ~ In k ds ->
  map_find k (writes (fold_left (fun tg k => Erase k tg) ds target))
  = map_find k (writes target)
  /\ set_count k (deletes (fold_left (fun tg k => Erase k tg) ds target))
     = set_count k (deletes target).
Proof.
  revert target. induction ds as [|d ds IH]; simpl; intros target Ht N; auto.
  destruct (IH (Erase d target)) as [E1 E2]; [now apply Erase_ok | tauto |].
  rewrite E1, E2, (Erase_find _ _ _ Ht), Erase_count.
  destruct (eq_key_dec k d) as [->|_]; [tauto | now split].
Qed.

Lemma fold_Write_lookup k (ws : WritesMap) target :
  transaction_ok target -> ~ In k (map fst ws) ->
  map_find k
    (writes (fold_left (fun tg p => ValueHolder_Write (snd p) (fst p) tg) ws target))
  = map_find k (writes target)
  /\ set_count k
       (deletes (fold_left (fun tg p => ValueHolder_Write (snd p) (fst p) tg) ws target))
     = set_count k (deletes target).
Proof.
  revert target. induction ws as [|[k0 h] ws IH]; intros target Ht N;
    [now split|].
  cbn [fold_left].
  change (ValueHolder_Write (snd (k0, h)) (fst (k0, h)) target)
    with (Write k0 (vh_value h) target).
  destruct (IH (Write k0 (vh_value h) target)) as [E1 E2];
    [now apply Write_ok | simpl in N; tauto |].
  rewrite E1, E2, Write_find, (Write_count _ _ _ _ Ht).
  destruct (eq_key_dec k k0) as [->|_]; [simpl in N; tauto | now split].
Qed.

Lemma fold_Write_written k holder (ws : WritesMap) target :
  transaction_ok target -> keys_sorted (map fst ws) -> In (k, holder) ws ->
  map_find k
    (writes (fold_left (fun tg p => ValueHolder_Write (snd p) (fst p) tg) ws target))
  = Some {| vh_memoryUsage := GetSerializeSize (vh_value holder);
            vh_value := vh_value holder |}
  /\ set_count k
       (deletes (fold_left (fun tg p => ValueHolder_Write (snd p) (fst p) tg) ws target))
     = false.
Proof.
  revert target. induction ws as [|[k0 h] ws IH]; intros target Ht S I;
    [now elim I|].
  cbn [fold_left].
  change (ValueHolder_Write (snd (k0, h)) (fst (k0, h)) target)
    with (Write k0 (vh_value h) target).
  simpl in S. apply sorted_cons_inv in S as [S F].
  destruct I as [E|I].
  - inversion E; subst.
    destruct (fold_Write_lookup k ws (Write k (vh_value holder) target)) as [E1 E2].
    + now apply Write_ok.
    + intros J. rewrite Forall_forall in F. exact (klt_neq _ _ (F k J) eq_refl).
    + rewrite E1, E2, Write_find, (Write_count _ _ _ _ Ht).
      now destruct (eq_key_dec k k).
  - apply IH; auto. now apply Write_ok.
Qed.

Lemma Read_Exists_lookup {P} `{ParentStore P} (parent : P) a b k V :
  map_find k (writes a) = map_find k (writes b) ->
  set_count k (deletes a) = set_count k (deletes b) ->
  Read parent a k V = Read parent b k V
  /\ Exists parent a k = Exists parent b k.
Proof. intros Ef Ec. unfold Read, Exists, map_count. now rewrite Ef, Ec. Qed.

(** X10.  [Commit] into another transaction carries the view over: every
    key reads, and exists, in the commit target afterwards exactly as it
    did before through the committed transaction stacked on the target. *)
Theorem Commit_preserves_view {P} `{ParentStore P} (parent : P)
  (commitTarget t : CDBTransaction) (k : CDataStream) (V : tag) :
  transaction_ok t -> transaction_ok commitTarget ->
  Read parent (fst (Commit commitTarget t)) k V = Read (parent, commitTarget) t k V
  /\ Exists parent (fst (Commit commitTarget t)) k
     = Exists (parent, commitTarget) t k.
Proof.
  intros Ht Hc. pose proof Ht as Ht'.
  apply transaction_ok_spec in Ht' as (Sw & Sd & D).
  unfold Commit. cbn [fst].
  set (target1 := fold_left (fun tg k => target_Erase k tg) (deletes t) commitTarget).
  assert (transaction_ok target1) as H1 by now apply fold_Erase_ok.
  destruct (set_count k (deletes t)) eqn:Ed.
  - assert (~ In k (map fst (writes t))) as Nw.
    { intros I. apply (map_count_In _ _ Sw) in I. rewrite (D _ I) in Ed.
      discriminate. }
    assert (set_count k (deletes target1) = true) as E1.
    { apply fold_Erase_deleted. left. now apply (set_count_In _ _ Sd). }
    pose proof (fold_Write_deleted k (writes t) target1 H1 Nw E1) as E2.
    unfold Read, Exists. now rewrite E2, Ed.
  - destruct (map_find k (writes t)) as [holder|] eqn:Ef.
    + pose proof (proj1 (map_find_In _ _ _ Sw) Ef) as I.
      destruct (fold_Write_written k holder (writes t) target1 H1 Sw I) as [E1 E2].
      unfold Read, Exists, map_count. rewrite E1, E2, Ed, Ef.
      unfold dynamic_cast. cbn [vh_value].
      now destruct (tag_eq_dec (type_of (vh_value holder)) V).
    + assert (~ In k (map fst (writes t))) as Nw.
      { intros I. apply (map_count_In _ _ Sw) in I. unfold map_count in I.
        now rewrite Ef in I. }
      assert (~ In k (deletes t)) as Nd.
      { intros I. apply (set_count_In _ _ Sd) in I. now rewrite Ed in I. }
      destruct (fold_Write_lookup k (writes t) target1 H1 Nw) as [E1 E2].
      destruct (fold_Erase_lookup k (deletes t) commitTarget Hc Nd) as [E3 E4].
      fold target1 in E3, E4.
      destruct (Read_Exists_lookup parent _ commitTarget k V
                  (eq_trans E1 E3) (eq_trans E2 E4)) as [R1 R2].
      rewrite R1, R2. unfold Read at 2, Exists at 2, map_count.
      now rewrite Ed, Ef.
Qed.

(** X11.  [Commit] keeps the target transaction's own accounting exact:
    for a target reached by calls, its counter is the analytic total of
    its sets after any transaction has been committed into it. *)
Theorem Commit_keeps_target_accounting {T} `{CommitTarget T} (outer : T)
  (calls : list Call) (t : CDBTransaction) :
  let target := fst (Commit (snd (run_calls outer calls)) t) in
  memoryUsage target = ssize_t_wrap (analytic_usage target)
  /\ transaction_ok target.
Proof.
  intros target. subst target. unfold Commit. cbn [fst].
  assert (usage_ok (snd (run_calls outer calls))) as Hu.
  { apply fold_calls_usage_ok. exact usage_new_ok. }
  pose proof (run_calls_ok outer calls) as Ho.
  revert Hu Ho. generalize (snd (run_calls outer calls)) as target.
  intros target Hu Ho.
  assert (forall ds tg, usage_ok tg ->
            usage_ok (fold_left (fun tg k => target_Erase k tg) ds tg)) as FE.
  { induction ds as [|d ds IH]; simpl; intros tg Hg; auto with overlay. }
  assert (forall (ws : WritesMap) tg, usage_ok tg ->
            usage_ok (fold_left (fun tg p => ValueHolder_Write (snd p) (fst p) tg) ws tg))
    as FW.
  { induction ws as [|w ws IH]; simpl; intros tg Hg; auto.
    apply IH. now apply Write_usage_ok. }
  split.
  - now apply FW, FE.
  - now apply fold_Write_ok, fold_Erase_ok.
Qed.

(** X12.  [Commit] makes exactly one call per key of the two sets: the
    calls it issues are as many as the entries, their keys are those of
    the delete-set and the write-set, and no key gets two calls. *)
Theorem Commit_one_call_per_key (t : CDBTransaction) :
  transaction_ok t ->
  let calls : list TargetCall := fst (Commit [] t) in
  length calls = (length (deletes t) + length (writes t))%nat
  /\ NoDup (map TargetCall_key calls)
  /\ forall k,
       In k (map TargetCall_key calls) <->
       In k (deletes t) \/ In k (map fst (writes t)).
Proof.
  intros Ht calls. subst calls. unfold Commit. cbn [fst].
  rewrite fold_recorder_Erase, fold_recorder_Write. cbn [app].
  apply transaction_ok_spec in Ht as (Sw & Sd & D).
  assert (map TargetCall_key
            (map CalledErase (deletes t)
             ++ map (fun p => CalledWrite (fst p) (vh_value (snd p))) (writes t))
          = deletes t ++ map fst (writes t)) as ->.
  { rewrite map_app, !map_map. cbn [TargetCall_key].
    now rewrite map_id. }
  split; [|split].
  - now rewrite length_app, !length_map.
  - apply NoDup_app; [now apply sorted_NoDup | now apply sorted_NoDup |].
    intros k Id Iw. apply (set_count_In _ _ Sd) in Id.
    apply (map_count_In _ _ Sw) in Iw. rewrite (D _ Iw) in Id. discriminate.
  - intros k. apply in_app_iff.
Qed.

(** *** A transaction with nothing pending *)

(** X13.  A transaction that [IsClean] shows its parent unchanged: [Read]
    and [Exists] give the parent's answers and a traversal visits the
    parent's keys.  The constructor, [Clear] and [Commit] leave the
    transaction clean. *)
Theorem clean_transaction_is_transparent {P} `{ParentStore P} (parent : P)
  (t : CDBTransaction) :
  (IsClean t = true ->
   (forall k V, Read parent t k V = parent_Read parent k V)
   /\ (forall k, Exists parent t k = parent_Exists parent k)
   /\ iterate parent t = Some (parent_keys parent))
  /\ IsClean CDBTransaction_new = true
  /\ IsClean (Clear t) = true
  /\ (forall T (CT : CommitTarget T) (commitTarget : T),
        IsClean (snd (Commit commitTarget t)) = true).
Proof.
  split; [|now repeat split].
  unfold IsClean. intros Hc.
  destruct (writes t) as [|w ws] eqn:Ew; [|discriminate].
  destruct (deletes t) as [|d ds] eqn:Ed; [|discriminate].
  split; [|split].
  - intros k V. unfold Read. now rewrite Ew, Ed.
  - intros k. unfold Exists, map_count. now rewrite Ew, Ed.
  - rewrite iterate_merged_view. unfold merged_view. rewrite Ew. cbn [map].
    rewrite merge_keys_nil_l. f_equal. apply forallb_filter_id.
    apply forallb_forall. intros k _. unfold unshadowed, map_count.
    now rewrite Ew, Ed.
Qed.

(** *** What a traversal visits *)

(** X14.  When the parent's [Exists] agrees with the keys its iterator
    yields, the same holds one level up: a full traversal of the
    transaction visits exactly the keys for which its [Exists] is true. *)
Theorem traversal_visits_existing_keys {P} `{ParentStore P} (parent : P)
  (t : CDBTransaction) :
  transaction_ok t ->
  (forall k, parent_Exists parent k = true <-> In k (parent_keys parent)) ->
  exists ks,
    iterate parent t = Some ks
    /\ forall k, In k ks <-> Exists parent t k = true.
Proof.
  intros Ht Hp. eexists. split; [apply iterate_merged_view|].
  intros k. rewrite (merged_view_In _ _ _ Ht).
  pose proof Ht as Ht'. apply transaction_ok_spec in Ht' as (Sw & Sd & D).
  unfold Exists.
  destruct (set_count k (deletes t)) eqn:Ed.
  - pose proof (proj1 (set_count_In _ _ Sd) Ed) as Id. split; [|discriminate].
    intros [Iw|(_ & _ & Nd)]; [|tauto].
    apply (map_count_In _ _ Sw) in Iw. rewrite (D _ Iw) in Ed. discriminate.
  - assert (~ In k (deletes t)) as Nd.
    { intros I. apply (set_count_In _ _ Sd) in I. now rewrite Ed in I. }
    destruct (map_count k (writes t)) eqn:Ew.
    + apply (map_count_In _ _ Sw) in Ew. tauto.
    + assert (~ In k (map fst (writes t))) as Nw.
      { intros I. apply (map_count_In _ _ Sw) in I. now rewrite Ew in I. }
      rewrite Hp. tauto.
Qed.

Lemma CDBWrapper_Exists_keys (w : CDBWrapper) k :
  keys_sortedb (map fst (pdb w)) = true ->
  parent_Exists w k = true <-> In k (parent_keys w).
Proof.
  intros S. apply keys_sortedb_spec in S.
  cbn [parent_Exists parent_keys ParentStore_CDBWrapper].
  unfold CDBWrapper_Exists, ExistsImpl, to_stream, KeyType_CDataStream.
  now apply map_count_In.
Qed.

(** X15.  After any sequence of calls whose analytic total is
    representable, [GetMemoryUsage] returns that total and logs nothing:
    the negative branch is not taken. *)
Theorem GetMemoryUsage_after_calls {T} `{CommitTarget T} (commitTarget : T)
  (calls : list Call) (l : LogState) :
  let t := snd (run_calls commitTarget calls) in
  analytic_usage t < 2 ^ 63 ->
  GetMemoryUsage t l = (analytic_usage t, l).
Proof.
  intros t Hb.
  assert (usage_ok t) as [_ Hm].
  { apply fold_calls_usage_ok. exact usage_new_ok. }
  pose proof (analytic_usage_nonneg t) as Hn.
  rewrite ssize_t_wrap_id in Hm by (unfold is_ssize_t; lia).
  unfold GetMemoryUsage. rewrite Hm.
  destruct (analytic_usage t <? 0) eqn:E; [apply Z.ltb_lt in E; lia|].
  unfold size_t_wrap. now rewrite Z.mod_small by lia.
Qed.

(** *** Seek *)

Lemma less_nil_r a : less a [] = false.
Proof. now destruct a. Qed.

Lemma filter_all_above k ks :
  Forall (fun k' => less k' k = false) ks ->
  filter (fun k' => negb (less k' k)) ks = ks.
Proof.
  intros F. apply forallb_filter_id. apply forallb_forall.
  rewrite Forall_forall in F. intros x I. now rewrite (F x I).
Qed.

Lemma not_less_above k k' ks :
  less k' k = false -> Forall (klt k') ks ->
  Forall (fun k'' => less k'' k = false) ks.
Proof.
  intros Hk F. eapply Forall_impl; [|exact F]. intros k'' H1. cbv beta.
  destruct (less k'' k) eqn:E; [|reflexivity].
  pose proof (less_trans _ _ _ H1 E) as C. unfold klt in C. congruence.
Qed.

(** On a container in comparator order, [lower_bound] keeps exactly the
    keys that are not less than the target. *)
Lemma keys_lower_bound_filter k ks :
  keys_sorted ks ->
  keys_lower_bound k ks = filter (fun k' => negb (less k' k)) ks.
Proof.
  induction ks as [|k' ks IH]; simpl; intros S; [reflexivity|].
  apply sorted_cons_inv in S as [S F].
  destruct (less k' k) eqn:E; simpl; [now apply IH|].
  f_equal. symmetry. apply filter_all_above.
  now apply (not_less_above k k').
Qed.

Lemma map_lower_bound_keys {T} k (m : @WritesMapOf T) :
  map fst (map_lower_bound k m) = keys_lower_bound k (map fst m).
Proof.
  induction m as [|[k' v'] m IH]; simpl; [reflexivity|].
  now destruct (less k' k).
Qed.

Lemma keys_lower_bound_length k ks :
  (length (keys_lower_bound k ks) <= length ks)%nat.
Proof.
  induction ks as [|k' ks IH]; simpl; [lia|].
  destruct (less k' k); simpl; lia.
Qed.

Lemma Seek_positioned {P} `{ParentStore P} (parent : P) t ssKey it :
  Seek parent t ssKey it
  = positioned t (map_lower_bound ssKey (writes t))
      (keys_lower_bound ssKey (parent_keys parent)) (parentKey it) (curIsParent it).
Proof. reflexivity. Qed.

(** The keys a traversal from [Seek(ssKey)] visits. *)
Lemma Seek_view_spec {P} `{ParentStore P} (parent : P) t ssKey :
  transaction_ok t -> keys_sorted (parent_keys parent) ->
  let ks := merge_keys (map fst (map_lower_bound ssKey (writes t)))
              (filter (unshadowed t) (keys_lower_bound ssKey (parent_keys parent))) in
  keys_sorted ks
  /\ forall k, In k ks <-> less k ssKey = false /\ visible_key parent t k.
Proof.
  intros Ht Sp ks. subst ks. pose proof Ht as Ht'.
  apply transaction_ok_spec in Ht' as (Sw & Sd & D).
  rewrite map_lower_bound_keys, !keys_lower_bound_filter by assumption.
  split.
  - apply merge_keys_sorted; repeat apply filter_sorted; auto.
    intros k I J. apply filter_In in I as [I _]. apply filter_In in J as [_ U].
    apply (unshadowed_spec _ _ Ht) in U. tauto.
  - intros k. unfold visible_key.
    rewrite merge_keys_In, !filter_In, (unshadowed_spec _ _ Ht), negb_true_iff.
    tauto.
Qed.

(** X16.  A full traversal from [Seek(key)] ends without a failed
    assertion and visits, in strictly ascending order, exactly the visible
    keys that are not less than [key]; seeking the empty key is
    [SeekToFirst]. *)
Theorem Seek_traversal {P} `{ParentStore P} (parent : P) (t : CDBTransaction)
  (ssKey : CDataStream) (fuel : nat) :
  transaction_ok t ->
  keys_sortedb (parent_keys parent) = true ->
  (length (writes t) + length (parent_keys parent) <= fuel)%nat ->
  (exists ks,
     traverse fuel t (Seek parent t ssKey (NewIterator t)) = Some ks
     /\ keys_sorted ks
     /\ forall k, In k ks <-> less k ssKey = false /\ visible_key parent t k)
  /\ (forall it, Seek parent t [] it = SeekToFirst parent t it).
Proof.
  intros Ht Sp Hf. apply keys_sortedb_spec in Sp. split.
  - eexists. rewrite Seek_positioned. split.
    + apply traverse_positioned.
      pose proof (keys_lower_bound_length ssKey (parent_keys parent)).
      pose proof (keys_lower_bound_length ssKey (map fst (writes t))) as L.
      rewrite <- map_lower_bound_keys, !length_map in L. lia.
    + now apply Seek_view_spec.
  - intros it. rewrite Seek_positioned, SeekToFirst_positioned. f_equal.
    + destruct (writes t) as [|[k v] m]; [reflexivity|].
      cbn [map_lower_bound]. now rewrite less_nil_r.
    + destruct (parent_keys parent) as [|k ks]; [reflexivity|].
      cbn [keys_lower_bound]. now rewrite less_nil_r.
Qed.

Lemma traverse_head fuel t it ks :
  traverse fuel t it = Some ks ->
  (Valid it = false /\ ks = [])
  \/ (Valid it = true /\ exists ks', ks = GetKey it :: ks').
Proof.
  destruct fuel as [|fuel]; cbn [traverse];
    destruct (Valid it); try discriminate.
  - intros E. inversion E. now left.
  - destruct (Next t it) as [it'|]; [|discriminate].
    destruct (traverse fuel t it') as [ks'|]; [|discriminate].
    intros E. inversion E. right. eauto.
  - intros E. inversion E. now left.
Qed.

(** X17.  [Seek(key)] stands on the least visible key that is not less
    than [key]: the iterator is valid exactly when there is such a key, and
    then [GetKey()] is one and no other one is less than it. *)
Theorem Seek_finds_least_key {P} `{ParentStore P} (parent : P)
  (t : CDBTransaction) (ssKey : CDataStream) :
  transaction_ok t ->
  keys_sortedb (parent_keys parent) = true ->
  let it := Seek parent t ssKey (NewIterator t) in
  (Valid it = false ->
   forall k, visible_key parent t k -> less k ssKey = true)
  /\ (Valid it = true ->
      less (GetKey it) ssKey = false
      /\ visible_key parent t (GetKey it)
      /\ forall k, visible_key parent t k -> less k ssKey = false ->
                   less k (GetKey it) = false).
Proof.
  intros Ht Sp it. apply keys_sortedb_spec in Sp.
  destruct (Seek_view_spec parent t ssKey Ht Sp) as [Sk Ik].
  assert (traverse (length (writes t) + length (parent_keys parent)) t it
          = Some (merge_keys (map fst (map_lower_bound ssKey (writes t)))
                    (filter (unshadowed t)
                       (keys_lower_bound ssKey (parent_keys parent))))) as Et.
  { subst it. rewrite Seek_positioned. apply traverse_positioned.
    pose proof (keys_lower_bound_length ssKey (parent_keys parent)).
    pose proof (keys_lower_bound_length ssKey (map fst (writes t))) as L.
    rewrite <- map_lower_bound_keys, !length_map in L. lia. }
  apply traverse_head in Et as [[Hv E]|[Hv [ks' E]]]; rewrite E in *;
    (split; [intros Hv' | intros Hv']; try congruence).
  - intros k Vk. destruct (less k ssKey) eqn:El; [reflexivity|].
    exfalso. apply (proj2 (Ik k)). now split.
  - destruct (proj1 (Ik (GetKey it)) (or_introl eq_refl)) as [L V].
    split; [exact L|]. split; [exact V|].
    intros k Vk Lk. destruct (proj2 (Ik k) (conj Lk Vk)) as [<-|I].
    + apply less_irrefl.
    + apply sorted_cons_inv in Sk as [_ F]. rewrite Forall_forall in F.
      now apply less_asym, F.
Qed.

(** *** Values along a traversal *)

(** X18.  At every valid position of a traversal (the transaction leg on a
    tail of the write-set, the parent leg skipped and the current leg
    decided): when the parent leg is current, [GetKey()] is a key in
    neither set and [GetValue] returns what the parent's [Read] returns
    for it; when the transaction leg is current, [GetKey()] is a write-set
    key and [GetValue] returns the value held for it, or throws when asked
    for another type. *)
Theorem traversal_position_values {P} `{ParentStore P} (parent : P)
  (t : CDBTransaction) (ws : WritesMap) (ps : list CDataStream)
  (pk : CDataStream) (cur : bool) (V : tag) :
  transaction_ok t ->
  (exists before, writes t = before ++ ws) ->
  let it := positioned t ws ps pk cur in
  Valid it = true ->
  (curIsParent it = true ->
   unshadowed t (GetKey it) = true
   /\ GetValue parent t it V = parent_Read parent (GetKey it) V)
  /\ (curIsParent it = false ->
      exists holder,
        In (GetKey it, holder) (writes t)
        /\ GetValue parent t it V
           = if tag_eq_dec (type_of (vh_value holder)) V
             then ReadTrue (vh_value holder) else ReadThrows).
Proof.
  intros Ht [before Eb]. pose proof (skip_loop_spec t ps pk) as (_ & _ & Hh).
  unfold positioned, SkipDeletedAndOverwritten.
  cbn [parentIt parentKey transactionIt curIsParent].
  destruct (skip_loop t ps pk) as [ps1 pk1]. cbn [fst snd] in Hh. cbv zeta.
  assert (forall b, unshadowed t b = true ->
            Read parent t b V = parent_Read parent b V) as Rp.
  { intros b U. unfold unshadowed in U. apply andb_prop in U as [U1 U2].
    apply negb_true_iff in U1, U2. unfold map_count in U2.
    unfold Read. rewrite U1.
    now destruct (map_find b (writes t)). }
  assert (forall a h, ws = (a, h) :: tl ws -> In (a, h) (writes t)) as Iw.
  { intros a h E. rewrite Eb, E. apply in_or_app. right. now left. }
  destruct ws as [|[a h] ws']; destruct ps1 as [|b ps'].
  - discriminate.
  - destruct Hh as [-> Ub]. intros _. cbn.
    split; [|discriminate].
    intros _. split; [exact Ub | now apply Rp].
  - intros _. cbn. split; [discriminate|].
    intros _. exists h. split; [now apply Iw|].
    apply Read_in_writes; [exact Ht | now apply Iw].
  - destruct Hh as [-> Ub]. intros _.
    unfold DecideCur, GetKey, GetValue, Valid; cbn.
    destruct (less a b); cbn.
    + split; [discriminate|].
      intros _. exists h. split; [now apply Iw|].
      apply Read_in_writes; [exact Ht | now apply Iw].
    + split; [|discriminate].
      intros _. split; [exact Ub | now apply Rp].
Qed.

(** *** Exists against Read *)

(** X19.  When the parent never reads a key it says does not exist, nor
    does the transaction: a key for which [Exists] is false reads as not
    found for every requested type. *)
Theorem Read_of_missing_key {P} `{ParentStore P} (parent : P)
  (t : CDBTransaction) :
  (forall k V, parent_Exists parent k = false ->
               parent_Read parent k V = ReadFalse) ->
  forall k V, Exists parent t k = false -> Read parent t k V = ReadFalse.
Proof.
  intros Hp k V. unfold Exists, Read, map_count.
  destruct (set_count k (deletes t)); [reflexivity|].
  destruct (map_find k (writes t)); [discriminate|].
  apply Hp.
Qed.

Lemma CDBWrapper_missing_key (w : CDBWrapper) k V :
  parent_Exists w k = false -> parent_Read w k V = ReadFalse.
Proof.
  cbn [parent_Exists parent_Read ParentStore_CDBWrapper].
  unfold CDBWrapper_Exists, CDBWrapper_Read, ExistsImpl, ReadImpl, map_count.
  now destruct (map_find (to_stream k) (pdb w)).
Qed.

(** *** Growth of the accounted memory *)

(** X20.  One call grows the analytic total by at most the sizes of its
    arguments: a [Write] by at most key size plus serialized value size
    (exactly that for a key in neither set), an [Erase] by at most the key
    size. *)
Theorem analytic_usage_growth (t : CDBTransaction) (k : CDataStream) (v : value) :
  analytic_usage (Write k v t) <= analytic_usage t + size k + GetSerializeSize v
  /\ analytic_usage (Erase k t) <= analytic_usage t + size k
  /\ (map_count k (writes t) = false -> set_count k (deletes t) = false ->
      analytic_usage (Write k v t) = analytic_usage t + size k + GetSerializeSize v
      /\ analytic_usage (Erase k t) = analytic_usage t + size k).
Proof.
  unfold analytic_usage.
  rewrite Write_writes, Write_deletes, Erase_writes, Erase_deletes.
  rewrite map_put_usage, map_erase_usage, set_erase_usage, set_emplace_usage.
  cbn [vh_value].
  assert (0 <= size k) as Hk by (unfold size; lia).
  assert (0 <= match map_find k (writes t) with
               | Some old => size k + GetSerializeSize (vh_value old)
               | None => 0
               end) as Ho.
  { destruct (map_find k (writes t)); [|lia]. unfold GetSerializeSize. lia. }
  assert (forall s, set_count k s = false ->
            snd (set_erase k s) = 0 /\ snd (set_emplace k s) = true) as Hs.
  { induction s as [|k' s IH]; simpl; [now split|].
    cmp_cases k k'; [|now split|discriminate].
    intros E. specialize (IH E).
    destruct (set_erase k s), (set_emplace k s). exact IH. }
  split; [|split].
  - destruct (snd (set_erase k (deletes t)) =? 0); lia.
  - destruct (snd (set_emplace k (deletes t))); lia.
  - unfold map_count. intros Ew Ed.
    destruct (map_find k (writes t)); [discriminate|].
    destruct (Hs _ Ed) as [-> ->]. cbn. lia.
Qed.

End Model.

(** ** The properties on concrete stores *)

Import Ex.

Arguments Build_CDBTransaction {value}.
Arguments Build_CDBTransactionIterator {value}.
Arguments Build_ValueHolder {value}.

(** A wrapper holding ["a" -> 1] and ["c" -> 3] as obfuscated bytes. *)
Definition ex_db : CDBWrapper :=
  {| pdb := [(key_a, [xfe]); (key_c, [xfc])]; obfuscate_key := [xff] |}.

#[local] Instance ex_parent : ParentStore tag value CDBWrapper :=
  ParentStore_CDBWrapper tag value Unserialize.

#[local] Instance ex_target : CommitTarget value (CDBTransaction value) :=
  CommitTarget_CDBTransaction value Serialize.

#[local] Instance ex_db_target : CommitTarget value CDBWrapper :=
  CommitTarget_CDBWrapper value Serialize.

Definition ex_Read := @Read tag tag_eq_dec value type_of CDBWrapper ex_parent.
Definition ex_Exists := @Exists tag value CDBWrapper ex_parent.

(** A transaction over [ex_db] after [Write("b", 2)] and [Erase("a")]. *)
Definition ex_txn : CDBTransaction value :=
  snd (run_calls tag value Serialize ex_db
         [CallWrite tag value key_b (U8 x02); CallErase tag value key_a]).

(** An iterator with both legs on the key ["b"]. *)
Definition ex_tie : CDBTransactionIterator value :=
  {| transactionIt := [(key_b, {| vh_memoryUsage := 1; vh_value := U8 x02 |})];
     parentIt := [key_b];
     parentKey := key_b;
     curIsParent := false |}.

Example ex_txn_state :
  ex_txn
  = {| writes := [(key_b, {| vh_memoryUsage := 1; vh_value := U8 x02 |})];
       deletes := [key_a];
       memoryUsage := 3 |}.
Proof. reflexivity. Qed.

Example ex_db_reads :
  parent_Read tag value ex_db key_a TUint8 = ReadTrue value (U8 x01)
  /\ parent_Read tag value ex_db key_c TUint8 = ReadTrue value (U8 x03)
  /\ parent_Read tag value ex_db key_b TUint8 = ReadFalse value.
Proof. repeat split. Qed.

(** The scenario of two keys: the deleted parent key is not read and not
    visited, the written one is, and the untouched parent key stays. *)
Example ex_txn_scenario :
  ex_Read ex_db ex_txn key_a TUint8 = ReadFalse value
  /\ ex_Read ex_db ex_txn key_b TUint8 = ReadTrue value (U8 x02)
  /\ iterate tag value ex_db ex_txn = Some [key_b; key_c]
  /\ pdb (fst (Commit value ex_db ex_txn))
     = [(key_b, [xfd]); (key_c, [xfc])].
Proof. repeat split. Qed.

(** Two transactions over one wrapper: ["x" -> 1] is written to the first
    and committed to the wrapper, ["x" -> 2] is written to the second and
    not committed.  Through the second, ["x"] reads as 2 and is visited
    once. *)
Example ex_nested_scenario :
  let inner : CDBTransaction value :=
    Write value Serialize [x78] (U8 x01) (CDBTransaction_new value) in
  let db : CDBWrapper :=
    fst (Commit value {| pdb := []; obfuscate_key := [x5a] |} inner) in
  let inner' := snd (Commit value {| pdb := []; obfuscate_key := [x5a] |} inner) in
  let outer : CDBTransaction value :=
    Write value Serialize [x78] (U8 x02) (CDBTransaction_new value) in
  let nested := ParentStore_CDBTransaction tag tag_eq_dec value type_of in
  parent_Read tag value db [x78] TUint8 = ReadTrue value (U8 x01)
  /\ @Read tag tag_eq_dec value type_of _ nested (db, inner') outer [x78] TUint8
     = ReadTrue value (U8 x02)
  /\ @iterate tag value _ nested (db, inner') outer = Some [[x78]].
Proof. repeat split. Qed.

(** C1, as stated, fails: with both legs valid on the key ["b"],
    [DecideCur] makes the parent leg the current one. *)
Lemma DecideCur_tie_counterexample :
  transactionIt_valid value ex_tie = true
  /\ parentIt_Valid value ex_tie = true
  /\ transactionIt_first value ex_tie = parentKey value ex_tie
  /\ curIsParent value (DecideCur value ex_tie) <> false.
Proof. repeat split. discriminate. Qed.

(** The same position under the statement the code satisfies. *)
Lemma DecideCur_tie_parent_leg_witness :
  curIsParent value (DecideCur value ex_tie) = true
  /\ GetKey value (DecideCur value ex_tie) = key_b
  /\ GetValue tag tag_eq_dec value type_of ex_db ex_txn (DecideCur value ex_tie) TUint8
     = ReadTrue value (U8 x02).
Proof.
  destruct (DecideCur_tie_parent_leg tag tag_eq_dec value type_of
              ex_db ex_txn ex_tie TUint8 eq_refl eq_refl) as [_ H].
  destruct (H eq_refl) as (H1 & H2 & H3).
  split; [exact H1 | split; [exact H2|]].
  apply (H3 {| vh_memoryUsage := 1; vh_value := U8 x02 |}).
  - reflexivity.
  - simpl. left. reflexivity.
Defined.

(** The traversal of [ex_txn] over [ex_db]. *)
Lemma traversal_sorted_union_witness :
  exists ks,
    traverse value 3 ex_txn
      (SeekToFirst tag value ex_db ex_txn (NewIterator value ex_txn)) = Some ks
    /\ keys_sorted ks
    /\ NoDup ks
    /\ forall k,
         In k ks <->
         In k (map fst (writes value ex_txn))
         \/ (In k (parent_keys tag value ex_db)
             /\ ~ In k (map fst (writes value ex_txn))
             /\ ~ In k (deletes value ex_txn)).
Proof.
  apply (traversal_sorted_union tag value ex_db ex_txn 3).
  - reflexivity.
  - reflexivity.
  - simpl. lia.
Defined.

(** A transaction whose sets both hold ["a"]; no sequence of calls leads
    to it. *)
Definition ex_overlap : CDBTransaction value :=
  {| writes := [(key_a, {| vh_memoryUsage := 1; vh_value := U8 x05 |})];
     deletes := [key_a];
     memoryUsage := 3 |}.

(** A key in both sets is not found; then a deleted key, a written key and
    a key only the parent holds. *)
Lemma Read_Exists_precedence_witness :
  (ex_Read ex_db ex_overlap key_a TUint8 = ReadFalse value
   /\ ex_Exists ex_db ex_overlap key_a = false)
  /\ (ex_Read ex_db ex_txn key_a TUint8 = ReadFalse value
      /\ ex_Exists ex_db ex_txn key_a = false)
  /\ (ex_Exists ex_db ex_txn key_b = true
      /\ ex_Read ex_db ex_txn key_b TUint8 = ReadTrue value (U8 x02))
  /\ (ex_Read ex_db ex_txn key_c TUint8 = parent_Read tag value ex_db key_c TUint8
      /\ ex_Exists ex_db ex_txn key_c = parent_Exists tag value ex_db key_c).
Proof.
  split; [|split; [|split]].
  - apply (Read_Exists_precedence tag tag_eq_dec value type_of
             ex_db ex_overlap key_a TUint8 eq_refl).
    simpl. left. reflexivity.
  - apply (Read_Exists_precedence tag tag_eq_dec value type_of
             ex_db ex_txn key_a TUint8 eq_refl).
    simpl. left. reflexivity.
  - destruct (Read_Exists_precedence tag tag_eq_dec value type_of
                ex_db ex_txn key_b TUint8 eq_refl) as (_ & H & _).
    destruct (H (fun I => match I with
                          | or_introl E => ltac:(discriminate E)
                          | or_intror F => F
                          end)
                {| vh_memoryUsage := 1; vh_value := U8 x02 |}
                (or_introl eq_refl)) as [H1 H2].
    split; [exact H1 | exact (H2 eq_refl)].
  - apply (Read_Exists_precedence tag tag_eq_dec value type_of
             ex_db ex_txn key_c TUint8 eq_refl).
    + simpl. intros [E|F]; [discriminate E | exact F].
    + simpl. intros [E|F]; [discriminate E | exact F].
Defined.

(** The counter of [ex_txn] after its two calls. *)
Lemma memoryUsage_is_analytic_sum_witness :
  memoryUsage value ex_txn = analytic_usage value Serialize ex_txn
  /\ 0 <= memoryUsage value ex_txn.
Proof.
  apply (memoryUsage_is_analytic_sum tag value Serialize ex_db
           [CallWrite tag value key_b (U8 x02); CallErase tag value key_a]).
  reflexivity.
Defined.

(** A transaction whose counter is negative, and a log state after an
    earlier call has printed the diagnostic. *)
Definition ex_broken : CDBTransaction value :=
  {| writes := []; deletes := []; memoryUsage := -5 |}.

Definition ex_printed : LogState :=
  {| didPrint := true; debug_log := [NegativeMemoryUsage (-1)] |}.

(** C6, as stated, fails: with [didPrint] already set, a negative counter
    gives 0 and no diagnostic is emitted, the log stays as it was. *)
Lemma GetMemoryUsage_silent_counterexample :
  memoryUsage value ex_broken < 0
  /\ fst (GetMemoryUsage value ex_broken ex_printed) = 0
  /\ debug_log (snd (GetMemoryUsage value ex_broken ex_printed))
     = debug_log ex_printed
  /\ debug_log (snd (GetMemoryUsage value ex_broken ex_printed))
     <> debug_log ex_printed ++ [NegativeMemoryUsage (memoryUsage value ex_broken)].
Proof. repeat split. discriminate. Qed.

(** The first call with a negative counter logs, a later one does not, and
    the counter of [ex_txn] is returned as it is. *)
Lemma GetMemoryUsage_clamps_witness :
  let quiet := {| didPrint := false; debug_log := [] |} in
  (fst (GetMemoryUsage value ex_broken quiet) = 0
   /\ didPrint (snd (GetMemoryUsage value ex_broken quiet)) = true
   /\ debug_log (snd (GetMemoryUsage value ex_broken quiet))
      = [NegativeMemoryUsage (-5)])
  /\ (fst (GetMemoryUsage value ex_broken ex_printed) = 0
      /\ snd (GetMemoryUsage value ex_broken ex_printed) = ex_printed)
  /\ GetMemoryUsage value ex_txn quiet = (3, quiet).
Proof.
  intros quiet.
  assert (is_ssize_t (memoryUsage value ex_broken)) as R
    by (unfold is_ssize_t; simpl; lia).
  assert (memoryUsage value ex_broken < 0) as N by (simpl; lia).
  destruct (GetMemoryUsage_clamps value ex_broken quiet R) as (H1 & _ & _).
  destruct (H1 N) as (A1 & A2 & A3 & _).
  destruct (GetMemoryUsage_clamps value ex_broken ex_printed R) as (H2 & _ & _).
  destruct (H2 N) as (B1 & _ & _ & B4).
  split; [|split].
  - split; [exact A1 | split; [exact A2 | exact (A3 eq_refl)]].
  - split; [exact B1 | exact (B4 eq_refl)].
  - apply (GetMemoryUsage_clamps value ex_txn quiet).
    + change (memoryUsage value ex_txn) with 3. unfold is_ssize_t. lia.
    + change (memoryUsage value ex_txn) with 3. lia.
Defined.

(** A commit target that holds ["a"] before the transaction exists. *)
Definition ex_commit_target : CDBTransaction value :=
  Write value Serialize key_a (U8 x01) (CDBTransaction_new value).

(** ["a"] is read from the target before, and not after [Erase("a")] and
    [Commit()]. *)
Lemma Commit_erases_then_writes_then_clears_witness :
  ex_Read ex_db ex_commit_target key_a TUint8 = ReadTrue value (U8 x01)
  /\ ex_Read ex_db
       (fst (Commit value ex_commit_target (Erase value key_a ex_txn))) key_a TUint8
     = ReadFalse value
  /\ ex_Exists ex_db
       (fst (Commit value ex_commit_target (Erase value key_a ex_txn))) key_a
     = false.
Proof.
  split; [reflexivity|].
  destruct (Commit_erases_then_writes_then_clears tag tag_eq_dec value type_of Serialize)
    as (_ & _ & H).
  apply (H CDBWrapper ex_parent ex_db ex_commit_target ex_txn key_a TUint8).
  - reflexivity.
  - reflexivity.
Defined.

(** An absent key, bytes that do not decode as the requested type, and
    bytes that do. *)
Lemma CDBWrapper_Read_not_found_witness :
  CDBWrapper_Read tag value Unserialize ex_db key_b TUint8 = ReadFalse value
  /\ CDBWrapper_Read tag value Unserialize ex_db key_a TBytes = ReadFalse value
  /\ CDBWrapper_Read tag value Unserialize ex_db key_a TUint8 = ReadTrue value (U8 x01)
  /\ CDBIterator_GetValue tag value Unserialize ex_db [xfe] TBytes = ReadFalse value.
Proof.
  destruct (CDBWrapper_Read_not_found tag value Unserialize ex_db key_b TUint8)
    as (H1 & _).
  destruct (CDBWrapper_Read_not_found tag value Unserialize ex_db key_a TBytes)
    as (_ & H2 & _ & _ & H5 & _).
  destruct (CDBWrapper_Read_not_found tag value Unserialize ex_db key_a TUint8)
    as (_ & _ & H3 & _).
  split; [exact (H1 eq_refl)|].
  split; [exact (H2 [xfe] eq_refl eq_refl)|].
  split; [exact (H3 [xfe] (U8 x01) eq_refl eq_refl)|].
  exact (H5 [xfe] eq_refl).
Defined.

(** ["b"] was written as a byte: read as a byte string it throws. *)
Lemma Read_type_mismatch_throws_witness :
  ex_Read ex_db ex_txn key_b TBytes = ReadThrows value
  /\ ex_Read ex_db ex_txn key_b TUint8 = ReadTrue value (U8 x02)
  /\ ex_Read ex_db (Write value Serialize key_c (Bytes [x07]) ex_txn) key_c TUint8
     = ReadThrows value.
Proof.
  destruct (Read_type_mismatch_throws tag tag_eq_dec value type_of Serialize
              ex_db ex_txn key_b TBytes eq_refl) as [H1 _].
  destruct (Read_type_mismatch_throws tag tag_eq_dec value type_of Serialize
              ex_db ex_txn key_b TUint8 eq_refl) as [H2 _].
  destruct (Read_type_mismatch_throws tag tag_eq_dec value type_of Serialize
              ex_db ex_txn key_c TUint8 eq_refl) as [_ H3].
  split; [|split].
  - apply (H1 {| vh_memoryUsage := 1; vh_value := U8 x02 |} (or_introl eq_refl)).
    discriminate.
  - apply (H2 {| vh_memoryUsage := 1; vh_value := U8 x02 |} (or_introl eq_refl)).
    reflexivity.
  - apply (H3 (Bytes [x07])). discriminate.
Defined.

(** Sizes for the example: both report the length of the key. *)
Definition ex_sizes : KeySizes :=
  {| ParentIterator_GetKeySize :=
       fun ps => match ps with [] => 0 | k :: _ => size k end;
     vKey_size := size |}.

(** An iterator that has not been positioned. *)
Lemma invalid_iterator_accessors_witness :
  let it := NewIterator value ex_txn in
  Next value ex_txn it = Some it
  /\ GetKey_typed tag value Unserialize it TUint8 = None
  /\ GetValue tag tag_eq_dec value type_of ex_db ex_txn it TUint8 = ReadFalse value
  /\ GetKey value it = []
  /\ GetKeySize value ex_sizes it = 0.
Proof.
  apply (invalid_iterator_accessors tag tag_eq_dec value type_of Unserialize
           ex_sizes ex_db ex_txn (NewIterator value ex_txn) TUint8 TUint8).
  reflexivity.
Defined.

(** ** The further properties on concrete stores *)

#[local] Instance ex_nested : ParentStore tag value (CDBWrapper * CDBTransaction value) :=
  ParentStore_CDBTransaction tag tag_eq_dec value type_of.

#[local] Instance ex_recorder : CommitTarget value (list (TargetCall value)) :=
  CommitTarget_recorder value.

(** X1: ["a" < "b" < "c"]. *)
Lemma less_strict_total_order_witness :
  less key_a key_c = true
  /\ less key_b key_a = false
  /\ (less key_a key_b = true \/ less key_b key_a = true).
Proof.
  destruct less_strict_total_order as (_ & Ht & Ha & Htot & _).
  split; [exact (Ht key_a key_b key_c eq_refl eq_refl)|].
  split; [exact (Ha key_a key_b eq_refl)|].
  apply Htot. discriminate.
Defined.

(** X5: the first [Next] of the traversal of [ex_txn] over [ex_db]. *)
Lemma Next_advances_witness :
  let it := SeekToFirst tag value ex_db ex_txn (NewIterator value ex_txn) in
  exists it',
    Next value ex_txn it = Some it'
    /\ (length (transactionIt value it') + length (parentIt value it')
        < length (transactionIt value it) + length (parentIt value it))%nat.
Proof.
  intros it. eexists. split; [reflexivity|].
  apply (Next_advances value ex_txn it _ eq_refl eq_refl).
Defined.

(** X7: a call on ["b"] seen from ["c"]. *)
Lemma other_keys_unaffected_witness :
  ex_Read ex_db (Write value Serialize key_b (U8 x09) ex_txn) key_c TUint8
  = ex_Read ex_db ex_txn key_c TUint8
  /\ ex_Exists ex_db (Write value Serialize key_b (U8 x09) ex_txn) key_c
     = ex_Exists ex_db ex_txn key_c
  /\ ex_Read ex_db (Erase value key_b ex_txn) key_c TUint8
     = ex_Read ex_db ex_txn key_c TUint8
  /\ ex_Exists ex_db (Erase value key_b ex_txn) key_c
     = ex_Exists ex_db ex_txn key_c.
Proof.
  apply (other_keys_unaffected tag tag_eq_dec value type_of Serialize
           ex_db ex_txn key_b key_c (U8 x09) TUint8).
  - reflexivity.
  - discriminate.
Defined.

(** X9: writing and erasing ["c"], which the parent holds. *)
Lemma traversal_follows_calls_witness :
  ex_Exists ex_db (Write value Serialize key_c (U8 x09) ex_txn) key_c = true
  /\ (exists ks,
        iterate tag value ex_db (Write value Serialize key_c (U8 x09) ex_txn) = Some ks
        /\ In key_c ks)
  /\ (exists ks,
        iterate tag value ex_db (Erase value key_c ex_txn) = Some ks
        /\ ~ In key_c ks).
Proof.
  apply (traversal_follows_calls tag value Serialize ex_db ex_txn key_c (U8 x09)).
  reflexivity.
Defined.

(** X10: [ex_txn] committed into a transaction that holds ["a"]. *)
Lemma Commit_preserves_view_witness :
  ex_Read ex_db (fst (Commit value ex_commit_target ex_txn)) key_b TUint8
  = Read tag tag_eq_dec value type_of (ex_db, ex_commit_target) ex_txn key_b TUint8
  /\ ex_Exists ex_db (fst (Commit value ex_commit_target ex_txn)) key_b
     = Exists tag value (ex_db, ex_commit_target) ex_txn key_b.
Proof.
  apply (Commit_preserves_view tag tag_eq_dec value type_of Serialize
           ex_db ex_commit_target ex_txn key_b TUint8).
  - reflexivity.
  - reflexivity.
Defined.

(** X12: the calls [ex_txn] makes when committed. *)
Lemma Commit_one_call_per_key_witness :
  let calls : list (TargetCall value) := fst (Commit value [] ex_txn) in
  length calls = (length (deletes value ex_txn) + length (writes value ex_txn))%nat
  /\ NoDup (map (TargetCall_key value) calls)
  /\ forall k,
       In k (map (TargetCall_key value) calls) <->
       In k (deletes value ex_txn) \/ In k (map fst (writes value ex_txn)).
Proof.
  apply (Commit_one_call_per_key value ex_txn). reflexivity.
Defined.

(** X13: a new transaction over [ex_db]. *)
Lemma clean_transaction_is_transparent_witness :
  (forall k V, ex_Read ex_db (CDBTransaction_new value) k V
               = parent_Read tag value ex_db k V)
  /\ (forall k, ex_Exists ex_db (CDBTransaction_new value) k
                = parent_Exists tag value ex_db k)
  /\ iterate tag value ex_db (CDBTransaction_new value)
     = Some (parent_keys tag value ex_db).
Proof.
  destruct (clean_transaction_is_transparent tag tag_eq_dec value type_of
              ex_db (CDBTransaction_new value)) as [H _].
  apply H. reflexivity.
Defined.

(** X14: the keys of [ex_txn] over [ex_db]. *)
Lemma traversal_visits_existing_keys_witness :
  exists ks,
    iterate tag value ex_db ex_txn = Some ks
    /\ forall k, In k ks <-> ex_Exists ex_db ex_txn k = true.
Proof.
  apply (traversal_visits_existing_keys tag value ex_db ex_txn).
  - reflexivity.
  - intros k. apply (CDBWrapper_Exists_keys tag value Unserialize ex_db k).
    reflexivity.
Defined.

(** X15: the counter of [ex_txn]. *)
Lemma GetMemoryUsage_after_calls_witness :
  GetMemoryUsage value ex_txn {| didPrint := false; debug_log := [] |}
  = (analytic_usage value Serialize ex_txn, {| didPrint := false; debug_log := [] |}).
Proof.
  apply (GetMemoryUsage_after_calls tag value Serialize ex_db
           [CallWrite tag value key_b (U8 x02); CallErase tag value key_a]).
  reflexivity.
Defined.

(** X16: seeking ["c"] in [ex_txn] over [ex_db]. *)
Lemma Seek_traversal_witness :
  exists ks,
    traverse value 3 ex_txn
      (Seek tag value ex_db ex_txn key_c (NewIterator value ex_txn)) = Some ks
    /\ keys_sorted ks
    /\ forall k, In k ks <->
                 less k key_c = false /\ visible_key tag value ex_db ex_txn k.
Proof.
  apply (Seek_traversal tag value ex_db ex_txn key_c 3).
  - reflexivity.
  - reflexivity.
  - simpl. lia.
Defined.

(** X17: seeking ["a"], which is deleted, stands on ["b"]. *)
Lemma Seek_finds_least_key_witness :
  let it := Seek tag value ex_db ex_txn key_a (NewIterator value ex_txn) in
  less (GetKey value it) key_a = false
  /\ visible_key tag value ex_db ex_txn (GetKey value it)
  /\ forall k, visible_key tag value ex_db ex_txn k -> less k key_a = false ->
               less k (GetKey value it) = false.
Proof.
  intros it.
  assert (transaction_ok value ex_txn) as H1 by reflexivity.
  assert (keys_sortedb (parent_keys tag value ex_db) = true) as H2 by reflexivity.
  destruct (Seek_finds_least_key tag value ex_db ex_txn key_a H1 H2) as [_ H].
  apply H. reflexivity.
Defined.

(** X18: the two positions of the traversal of [ex_txn] over [ex_db],
    first on the written ["b"], then on the parent's ["c"]. *)
Lemma traversal_position_values_witness :
  let it1 := positioned value ex_txn (writes value ex_txn)
               (parent_keys tag value ex_db) [] false in
  let it2 := positioned value ex_txn [] (parent_keys tag value ex_db) [] false in
  (exists holder,
     In (GetKey value it1, holder) (writes value ex_txn)
     /\ GetValue tag tag_eq_dec value type_of ex_db ex_txn it1 TUint8
        = if tag_eq_dec (type_of (vh_value value holder)) TUint8
          then ReadTrue value (vh_value value holder) else ReadThrows value)
  /\ (unshadowed value ex_txn (GetKey value it2) = true
      /\ GetValue tag tag_eq_dec value type_of ex_db ex_txn it2 TUint8
         = parent_Read tag value ex_db (GetKey value it2) TUint8).
Proof.
  intros it1 it2.
  assert (transaction_ok value ex_txn) as Ht by reflexivity.
  assert (Valid value it1 = true) as V1 by reflexivity.
  assert (Valid value it2 = true) as V2 by reflexivity.
  assert (curIsParent value it1 = false) as C1 by reflexivity.
  assert (curIsParent value it2 = true) as C2 by reflexivity.
  destruct (traversal_position_values tag tag_eq_dec value type_of ex_db ex_txn
              (writes value ex_txn) (parent_keys tag value ex_db) [] false TUint8
              Ht (ex_intro _ [] eq_refl) V1) as [_ H1].
  destruct (traversal_position_values tag tag_eq_dec value type_of ex_db ex_txn
              [] (parent_keys tag value ex_db) [] false TUint8
              Ht (ex_intro _ (writes value ex_txn) eq_refl) V2) as [H2 _].
  split; [exact (H1 C1) | exact (H2 C2)].
Defined.

(** X19: ["a"] is deleted in [ex_txn]. *)
Lemma Read_of_missing_key_witness :
  ex_Read ex_db ex_txn key_a TUint8 = ReadFalse value.
Proof.
  apply (Read_of_missing_key tag tag_eq_dec value type_of ex_db ex_txn).
  - intros k V. apply (CDBWrapper_missing_key tag value Unserialize ex_db k V).
  - reflexivity.
Defined.

(** X20: ["c"] is in neither set of [ex_txn]. *)
Lemma analytic_usage_growth_witness :
  analytic_usage value Serialize (Write value Serialize key_c (Bytes [x07]) ex_txn)
  = analytic_usage value Serialize ex_txn + size key_c
    + GetSerializeSize value Serialize (Bytes [x07])
  /\ analytic_usage value Serialize (Erase value key_c ex_txn)
     = analytic_usage value Serialize ex_txn + size key_c.
Proof.
  destruct (analytic_usage_growth value Serialize ex_txn key_c (Bytes [x07]))
    as (_ & _ & H).
  apply H; reflexivity.
Defined.
